(** * gg_posts.js: the paginated posts display

    A shallow embedding of the [PostsDisplay] class and of the JavaScript
    operations it uses, followed by the properties of its pagination.

    The class exists in two copies, [src/gg_posts.js] and the later
    [src/unnamed/part_000].  Their [create], constructor (apart from a
    [console.log]), [getLinkElemForPage], [getPaginationBar] and
    [displayPosts] are textually the same; [postToElem] is embedded from the
    later copy, which also renders the [i_text] phrases.

    Conventions of the embedding.
    - Numbers.  Every number the program computes is an integer, NaN or an
      infinity, except the quotient [posts.length / perPage], which goes to
      [Math.ceil] at once.  Integers are exact ([Z]); the program's doubles
      agree with them below 2^53 in magnitude, the [safe] integers.  Beyond
      that the program rounds ([parseInt], [+], [-], [*]), overflows to an
      infinity and prints in exponent notation (from 1e21), which the
      embedding does not follow: a statement about a value read from the
      query carries the bound [safe] where it needs exactness.  The two
      zeros are identified: the program only compares, adds, multiplies and
      prints its zeros, and a quotient by either zero ends as NaN in
      [numPages].
    - Strings are sequences of 8-bit characters, read as the code units
      U+0000 to U+00FF.  No such string holds a surrogate, the one thing
      [encodeURIComponent] throws on.
    - The posts are records of the shape the program reads: a body that is
      JSON of another shape (not an array, a post without [thumbnails], an
      [i_text] that is not an array of strings) is outside the embedding,
      with the [TypeError] the program throws on it.
    - Objects that are mutated (the [URLSearchParams] sets, the container's
      child list) live in an explicit store; methods are computations over
      the instance and that store, and a thrown exception is an outcome that
      keeps the store reached so far. *)

From Stdlib Require Import ZArith QArith Qround Ascii String DecimalString DecimalZ Lia.
From stdpp Require Import gmap strings list.

#[local] Set Warnings "-register-all".
#[local] Open Scope string_scope.
#[local] Open Scope Z_scope.
#[local] Open Scope list_scope.

(** ** Numbers *)

Inductive number : Type :=
  | NaN
  | PosInf
  | NegInf
  | Int (z : Z).

(** The value of a division, before [Math.ceil] makes it a [number]. *)
Inductive real : Type :=
  | RNaN
  | RPosInf
  | RNegInf
  | Ratio (q : Q).

#[global] Instance number_eq_dec : EqDecision number.
Proof. solve_decision. Defined.

Definition js_neg (a : number) : number :=
  match a with
  | NaN => NaN
  | PosInf => NegInf
  | NegInf => PosInf
  | Int z => Int (- z)
  end.

(** [a + b] *)
Definition js_add (a b : number) : number :=
  match a, b with
  | NaN, _ | _, NaN => NaN
  | PosInf, NegInf | NegInf, PosInf => NaN
  | PosInf, _ | _, PosInf => PosInf
  | NegInf, _ | _, NegInf => NegInf
  | Int x, Int y => Int (x + y)
  end.

(** [a - b] *)
Definition js_sub (a b : number) : number := js_add a (js_neg b).

(** [a * b] *)
Definition js_mul (a b : number) : number :=
  match a, b with
  | NaN, _ | _, NaN => NaN
  | Int x, Int y => Int (x * y)
  | Int x, inf | inf, Int x =>
      if x =? 0 then NaN
      else if x >? 0 then inf else js_neg inf
  | PosInf, PosInf | NegInf, NegInf => PosInf
  | PosInf, NegInf | NegInf, PosInf => NegInf
  end.

(** [a / b] *)
Definition js_div (a b : number) : real :=
  match a, b with
  | NaN, _ | _, NaN => RNaN
  | Int x, Int y =>
      if y =? 0 then
        if x =? 0 then RNaN else if x >? 0 then RPosInf else RNegInf
      else Ratio (inject_Z x / inject_Z y)
  | Int _, _ => Ratio 0
  | PosInf, Int y => if y <? 0 then RNegInf else RPosInf
  | NegInf, Int y => if y <? 0 then RPosInf else RNegInf
  | _, _ => RNaN
  end.

Definition Math_ceil (x : real) : number :=
  match x with
  | RNaN => NaN
  | RPosInf => PosInf
  | RNegInf => NegInf
  | Ratio q => Int (Qceiling q)
  end.

(** [a < b]; false when an operand is NaN. *)
Definition js_lt (a b : number) : bool :=
  match a, b with
  | NaN, _ | _, NaN => false
  | _, NegInf => false
  | PosInf, _ => false
  | NegInf, _ => true
  | _, PosInf => true
  | Int x, Int y => x <? y
  end.

(** [a > b] *)
Definition js_gt (a b : number) : bool := js_lt b a.

(** [a <= b]; false when an operand is NaN. *)
Definition js_le (a b : number) : bool :=
  match a, b with
  | NaN, _ | _, NaN => false
  | _, _ => negb (js_lt b a)
  end.

(** [a === b] on numbers: NaN is not equal to itself. *)
Definition js_strict_eq (a b : number) : bool :=
  match a, b with
  | NaN, _ | _, NaN => false
  | _, _ => bool_decide (a = b)
  end.

Definition Math_max (a b : number) : number :=
  match a, b with
  | NaN, _ | _, NaN => NaN
  | _, _ => if js_lt a b then b else a
  end.

Definition Math_min (a b : number) : number :=
  match a, b with
  | NaN, _ | _, NaN => NaN
  | _, _ => if js_lt b a then b else a
  end.

(** [!x] is true for NaN and zero. *)
Definition falsy (a : number) : bool :=
  match a with
  | NaN => true
  | Int z => z =? 0
  | _ => false
  end.

(** [String(a)]; the decimal expansion is what the program prints below
    1e21. *)
Definition Number_toString (a : number) : string :=
  match a with
  | NaN => "NaN"
  | PosInf => "Infinity"
  | NegInf => "-Infinity"
  | Int z => NilZero.string_of_int (Z.to_int z)
  end.

(** ** [parseInt] *)

Definition code (c : ascii) : Z := Z.of_nat (nat_of_ascii c).

(** White space that [parseInt] skips: TAB, LF, VT, FF, CR, SP and NBSP. *)
Definition is_white_space (c : ascii) : bool :=
  let n := code c in
  ((9 <=? n) && (n <=? 13)) || (n =? 32) || (n =? 160).

Fixpoint trim_start (s : string) : string :=
  match s with
  | String c s' => if is_white_space c then trim_start s' else s
  | EmptyString => s
  end.

(** Value of a character as a digit: [0-9], then letters of either case. *)
Definition digit_value (c : ascii) : option Z :=
  let n := code c in
  if (48 <=? n) && (n <=? 57) then Some (n - 48)
  else if (97 <=? n) && (n <=? 122) then Some (n - 87)
  else if (65 <=? n) && (n <=? 90) then Some (n - 55)
  else None.

Definition radix_digit (R : Z) (c : ascii) : option Z :=
  match digit_value c with
  | Some d => if d <? R then Some d else None
  | None => None
  end.

(** Reads the longest prefix of radix-[R] digits onto [acc]. *)
Fixpoint read_digits (R : Z) (s : string) (acc : Z) : Z :=
  match s with
  | String c s' =>
      match radix_digit R c with
      | Some d => read_digits R s' (acc * R + d)
      | None => acc
      end
  | EmptyString => acc
  end.

(** The integer written by the digit prefix, [None] when it is empty. *)
Definition mathInt (R : Z) (s : string) : option Z :=
  match s with
  | String c _ =>
      match radix_digit R c with
      | Some _ => Some (read_digits R s 0)
      | None => None
      end
  | EmptyString => None
  end.

(** After the sign: a [0x] or [0X] prefix selects radix 16 (no radix is
    passed anywhere in the program). *)
Definition parse_unsigned (s : string) : option Z :=
  match s with
  | String "0" (String "x" s') | String "0" (String "X" s') => mathInt 16 s'
  | _ => mathInt 10 s
  end.

(** [parseInt(s)]: the integer the digit prefix writes, exactly.  The
    program's result is that integer when it is [safe]; a longer prefix it
    rounds to a double or takes to an infinity. *)
Definition parseInt_string (s : string) : number :=
  let trimmed := trim_start s in
  let '(sign, rest) :=
    match trimmed with
    | String "-" rest => (-1, rest)
    | String "+" rest => (1, rest)
    | _ => (1, trimmed)
    end in
  match parse_unsigned rest with
  | Some n => Int (sign * n)
  | None => NaN
  end.

(** The values handed to [parseInt] and to [createTextNode]: a string or a
    number. *)
Inductive value : Type :=
  | Str (s : string)
  | Num (n : number).

Definition ToString (v : value) : string :=
  match v with
  | Str s => s
  | Num n => Number_toString n
  end.

Definition parseInt (v : value) : number := parseInt_string (ToString v).

(** [x || d] for [x] a string, [null] or [undefined]: the empty string is
    falsy as well. *)
Definition truthy (x : option string) : option string :=
  match x with
  | Some EmptyString | None => None
  | Some s => Some s
  end.

Definition or_number (x : option string) (d : number) : value :=
  match truthy x with
  | Some s => Str s
  | None => Num d
  end.

Definition or_string (x : option string) (d : string) : string :=
  match truthy x with
  | Some s => s
  | None => d
  end.

(** ** Arrays *)

(** The clamping of [Array.prototype.slice] on an argument, for an array of
    length [len]: NaN counts as 0 and a negative index counts from the end. *)
Definition relative_index (len : Z) (n : number) : Z :=
  match n with
  | NaN | NegInf => 0
  | PosInf => len
  | Int z => if z <? 0 then Z.max (len + z) 0 else Z.min z len
  end.

(** [l.slice(start, end_)] *)
Definition Array_slice {A : Type} (l : list A) (start end_ : number) : list A :=
  let len := Z.of_nat (length l) in
  let k := relative_index len start in
  let final := relative_index len end_ in
  take (Z.to_nat (Z.max (final - k) 0)) (drop (Z.to_nat k) l).

(** [l.join] with the empty separator. *)
Definition join (l : list string) : string := foldr String.append EmptyString l.

(** ** The data: posts, DOM nodes, query parameters *)

Record post : Type := {
  output_file : string;
  title : string;
  post_date : string;
  initial_text : string;
  thumbnails : list string;
  i_text : option (list string);
}.

(** A text node, the nodes the browser parses out of a string assigned to
    [innerHTML], or an element with its classes, its [href] when one was set
    and its child nodes. *)
Inductive node : Type :=
  | Text (data : string)
  | Markup (html : string)
  | Element (tagName : string) (classList : list string)
      (href : option string) (children : list node).

(** The content of a [URLSearchParams] object: name and value pairs in
    order, names may repeat. *)
Definition params : Type := list (string * string).

(** [q.get(name)]: the first value under [name], or [null]. *)
Fixpoint params_get (q : params) (name : string) : option string :=
  match q with
  | (k, v) :: q' => if String.eqb k name then Some v else params_get q' name
  | [] => None
  end.

(** [q.set(name, v)]: the first pair under [name] takes the value and the
    later ones go; without one the pair is appended. *)
Definition params_set (q : params) (name v : string) : params :=
  match params_get q name with
  | Some _ =>
      (fix go (q : params) (found : bool) : params :=
         match q with
         | (k, w) :: q' =>
             if String.eqb k name
             then (if found then go q' true else (k, v) :: go q' true)
             else (k, w) :: go q' found
         | [] => []
         end) q false
  | None => q ++ [(name, v)]
  end.

(** The [data-json-url] and [data-base-url] attributes of the container. *)
Record dataset : Type := {
  jsonUrl : option string;
  baseUrl_attr : option string;
}.

(** A response whose body, when it is JSON, is an array of posts. *)
Record response : Type := {
  ok : bool;
  status : Z;
  (** the posts [response.json()] resolves to, [None] when it rejects *)
  json : option (list post);
}.

(** What the browser supplies. [new_URL url base] is [new URL(url, base).href],
    [None] when the constructor throws; [fetch] is [None] when the request
    itself fails; [urlencode] serialises one name or value of a query
    string; [location_search] is the pairs that [new URLSearchParams] reads
    in [location.search].  [encodeURIComponent] is total on the strings of
    the embedding, which hold no surrogate. *)
Record environment : Type := {
  location_href : string;
  location_search : params;
  fetch : string -> option response;
  new_URL : string -> option string -> option string;
  encodeURIComponent : string -> string;
  urlencode : string -> string;
}.

(** [q.toString()] *)
Definition params_toString (env : environment) (q : params) : string :=
  match map (fun kv => urlencode env kv.1 +:+ "=" +:+ urlencode env kv.2) q with
  | [] => EmptyString
  | s :: l => foldl (fun acc t => acc +:+ "&" +:+ t) s l
  end.

(** ** The instance and the store *)

Definition loc : Type := nat.

Record view : Type := {
  parentElem : dataset;
  indexBaseUrl : string;
  baseUrl : option string;
  posts : list post;
  urlParams : loc;
  perPage : number;
  numPages : number;
  pagesFromEnd : number;
}.

Record world : Type := {
  (** the [URLSearchParams] objects, by reference *)
  objects : gmap loc params;
  (** the child nodes of the container element *)
  childNodes : list node;
  (** the URLs requested so far *)
  requests : list string;
}.

Record state : Type := {
  this : view;
  page : world;
}.

Inductive exn : Type :=
  | Error (message : string)
  | TypeError (message : string)
  | SyntaxError (message : string).

Inductive outcome (S A : Type) : Type :=
  | Returns (a : A) (s : S)
  | Throws (e : exn) (s : S).
Arguments Returns {S A} a s.
Arguments Throws {S A} e s.

(** Computations over a state [S] that return or throw. *)
Record M (S A : Type) : Type := Comp { run : S -> outcome S A }.
Arguments Comp {S A} run.
Arguments run {S A} m s.

#[global] Instance M_ret {S} : MRet (M S) :=
  fun A a => Comp (fun s => Returns a s).
#[global] Instance M_bind {S} : MBind (M S) :=
  fun A B f m => Comp (fun s =>
    match run m s with
    | Returns a s' => run (f a) s'
    | Throws e s' => Throws e s'
    end).

Definition throw {S A} (e : exn) : M S A := Comp (fun s => Throws e s).
Definition gets {S A} (f : S -> A) : M S A := Comp (fun s => Returns (f s) s).
Definition modify {S} (f : S -> S) : M S unit := Comp (fun s => Returns tt (f s)).

(** A computation on the page, run from a method of the instance. *)
Definition on_page {A} (m : M world A) : M state A :=
  Comp (fun s =>
    match run m (page s) with
    | Returns a w => Returns a {| this := this s; page := w |}
    | Throws e w => Throws e {| this := this s; page := w |}
    end).

(** Runs a method on the instance [v]; the instance is the result. *)
Definition with_this {A} (v : view) (m : M state A) : M world view :=
  Comp (fun w =>
    match run m {| this := v; page := w |} with
    | Returns _ s => Returns (this s) (page s)
    | Throws e s => Throws e (page s)
    end).

Fixpoint forEach {S A} (l : list A) (f : A -> M S unit) : M S unit :=
  match l with
  | x :: l' => _ ← f x; forEach l' f
  | [] => mret tt
  end.

(** [l.map((x, i) => f(i, x))], with [i] counted from [i0]. *)
Fixpoint map_indexed {S A B} (f : Z -> A -> M S B) (i0 : Z) (l : list A)
    : M S (list B) :=
  match l with
  | x :: l' => y ← f i0 x; ys ← map_indexed f (i0 + 1) l'; mret (y :: ys)
  | [] => mret []
  end.

(** *** Operations on the page *)

(** Reads the object at reference [l]. *)
Definition deref (l : loc) : M world params :=
  Comp (fun w =>
    match objects w !! l with
    | Some q => Returns q w
    | None => Throws (TypeError "not a URLSearchParams") w
    end).

Definition URLSearchParams_get (l : loc) (name : string) : M world (option string) :=
  q ← deref l; mret (params_get q name).

(** A new object with the pairs [q], at a reference not in use. *)
Definition alloc (q : params) : M world loc :=
  Comp (fun w =>
    let l := fresh (dom (objects w)) in
    Returns l {| objects := <[l := q]> (objects w);
                 childNodes := childNodes w; requests := requests w |}).

(** [new URLSearchParams(l)]: a new object with the pairs of [l]. *)
Definition URLSearchParams_new (l : loc) : M world loc :=
  q ← deref l; alloc q.

Definition URLSearchParams_set (l : loc) (name v : string) : M world unit :=
  q ← deref l;
  modify (fun w =>
    {| objects := <[l := params_set q name v]> (objects w);
       childNodes := childNodes w; requests := requests w |}).

Definition URLSearchParams_toString (env : environment) (l : loc) : M world string :=
  q ← deref l; mret (params_toString env q).

(** [parentElem.innerHTML] set to the empty string. *)
Definition clear_children : M world unit :=
  modify (fun w =>
    {| objects := objects w; childNodes := []; requests := requests w |}).

(** [parentElem.appendChild(n)] *)
Definition appendChild (n : node) : M world unit :=
  modify (fun w =>
    {| objects := objects w; childNodes := childNodes w ++ [n];
       requests := requests w |}).

(** [new URL(url, base).href] *)
Definition URL_href {S} (env : environment) (url : string) (base : option string)
    : M S string :=
  match new_URL env url base with
  | Some h => mret h
  | None => throw (TypeError "Invalid URL")
  end.

(** ** The class [PostsDisplay] *)

(** The double quote of the HTML templates. *)
Definition dq : string := String (ascii_of_nat 34) EmptyString.

(** [name="v"] *)
Definition attr (name v : string) : string := name +:+ "=" +:+ dq +:+ v +:+ dq.

(** *** The lines of the constructor that derive the pagination

    [g] is what [urlParams.get] returned: [None] for [null]. *)

(** [parseInt(urlParams.get("posts_per_page") || 20)] *)
Definition derive_perPage (g : option string) : number :=
  parseInt (or_number g (Int 20)).

(** [parseInt(Math.ceil(this.posts.length / this.perPage))] *)
Definition derive_numPages (ps : list post) (perPage : number) : number :=
  parseInt (Num (Math_ceil (js_div (Int (Z.of_nat (length ps))) perPage))).

(** [Math.max(0, this.numPages - 1)] *)
Definition defaultPagesFromEnd (numPages : number) : number :=
  Math_max (Int 0) (js_sub numPages (Int 1)).

(** [Math.min(defaultPagesFromEnd,
       parseInt(urlParams.get("posts_pages_from_end") || defaultPagesFromEnd))] *)
Definition derive_pagesFromEnd (g : option string) (numPages : number) : number :=
  Math_min (defaultPagesFromEnd numPages)
    (parseInt (or_number g (defaultPagesFromEnd numPages))).

(** *** The bounds of the slice in [displayPosts] *)

(** [this.posts.length - 1] *)
Definition lastIndex (v : view) : number :=
  js_sub (Int (Z.of_nat (length (posts v)))) (Int 1).

(** [Math.max(0, lastIndex - this.perPage * (1 + this.pagesFromEnd))] *)
Definition slice_start (v : view) : number :=
  Math_max (Int 0)
    (js_sub (lastIndex v) (js_mul (perPage v) (js_add (Int 1) (pagesFromEnd v)))).

(** [1 + lastIndex - this.perPage * this.pagesFromEnd] *)
Definition slice_end (v : view) : number :=
  js_sub (js_add (Int 1) (lastIndex v)) (js_mul (perPage v) (pagesFromEnd v)).

(** [this.posts.slice(start, end)]: the posts [displayPosts] renders. *)
Definition window (v : view) : list post :=
  Array_slice (posts v) (slice_start v) (slice_end v).

(** [/#.*/] and [/\?.*/] stop at a line terminator. *)
Definition is_line_terminator (c : ascii) : bool :=
  (code c =? 10) || (code c =? 13).

Fixpoint drop_line (s : string) : string :=
  match s with
  | String c s' => if is_line_terminator c then s else drop_line s'
  | EmptyString => s
  end.

(** [s.replace(/c.*/, empty)]: drops the first [c] and the rest of its line. *)
Fixpoint strip_from (c : ascii) (s : string) : string :=
  match s with
  | String c' s' =>
      if Ascii.eqb c' c then drop_line s' else String c' (strip_from c s')
  | EmptyString => s
  end.

(** The markup of the [i]-th thumbnail, [i] counted from 0, of the post at
    [path]: the template literal in [postToElem]. *)
Definition thumbnail_link (path : string) (i : Z) (src : string) : string :=
  "<a " +:+ attr "class" "post-thumbnail" +:+ " "
  +:+ attr "href" (path +:+ "#img-" +:+ Number_toString (js_add (Int i) (Int 1)))
  +:+ " " +:+ attr "title" "Click too see full image in context"
  +:+ "><img " +:+ attr "src" src +:+ "></a>".

Section PostsDisplay.

Variable env : environment.

(** [postToElem(post)] ([part_000], lines 49 to 76): the [div] of a post.
    Both [new URL] calls can throw; the phrases of [i_text], when the post
    has them, follow a [br], separated by commas. *)
Definition postToElem (p : post) : M state node :=
  v ← gets this;
  path ← URL_href env (output_file p) (baseUrl v);
  thumbs ← map_indexed (fun i src =>
      src ← URL_href env src (baseUrl v);
      mret (thumbnail_link path i src))
    0 (thumbnails p);
  let innerHTML :=
    "<h2 " +:+ attr "class" "post-heading" +:+ "><a " +:+ attr "href" path
    +:+ ">" +:+ title p +:+ "</a></h2>"
    +:+ "<a " +:+ attr "class" "snippet-link" +:+ " " +:+ attr "href" path
    +:+ "><em>Posted " +:+ post_date p +:+ "</em>. " +:+ initial_text p
    +:+ "</a><br>" +:+ join thumbs in
  let phrases :=
    match i_text p with
    | Some texts =>
        Element "br" [] None []
        :: concat (imap (fun i text =>
             (if js_gt (Int (Z.of_nat i)) (Int 0) then [Text ", "] else [])
             ++ [Element "a" ["post-i-link"]
                   (Some (path +:+ "#:~:text=" +:+ encodeURIComponent env text))
                   [Text text]]) texts)
    | None => []
    end in
  mret (Element "div" ["post"] None (Markup innerHTML :: phrases)).

(** [getLinkElemForPage(page, optLabel)] (lines 78 to 92): the label alone
    for the current page, and otherwise an anchor whose target carries a copy
    of the query with [posts_pages_from_end] set. *)
Definition getLinkElemForPage (pg : number) (optLabel : option string)
    : M state node :=
  v ← gets this;
  let label :=
    Element "span" ["page-link"] None [Text (ToString (or_number optLabel pg))] in
  let newPagesFromEnd := js_sub (numPages v) pg in
  if js_strict_eq newPagesFromEnd (pagesFromEnd v) then mret label
  else
    ps ← on_page (URLSearchParams_new (urlParams v));
    _ ← on_page (URLSearchParams_set ps "posts_pages_from_end"
                   (Number_toString newPagesFromEnd));
    query ← on_page (URLSearchParams_toString env ps);
    mret (Element "a" [] (Some (indexBaseUrl v +:+ "?" +:+ query)) [label]).

(** [for (let page = 1; page <= this.numPages; page++)], from [pg] on. *)
Fixpoint page_links (fuel : nat) (pg : Z) : M state (list node) :=
  match fuel with
  | S fuel' =>
      v ← gets this;
      if js_le (Int pg) (numPages v) then
        e ← getLinkElemForPage (Int pg) None;
        es ← page_links fuel' (pg + 1);
        mret (e :: es)
      else mret []
  | O => mret []
  end.

(** The number of turns of that loop, when it ends.  For [numPages] the
    positive infinity, or an integer from 2^53 on (where [page++] stops
    growing), the loop of the program never ends: those values, which the
    constructor does not store for a collection of fewer than 2^53 posts,
    are outside the embedding ([finite_pages] excludes them). *)
Definition turns (numPages : number) : nat :=
  match numPages with
  | Int m => Z.to_nat m
  | _ => O
  end.

(** [getPaginationBar()] (lines 94 to 109) *)
Definition getPaginationBar : M state node :=
  v ← gets this;
  let currentPage := js_sub (numPages v) (pagesFromEnd v) in
  prev ← (if js_gt currentPage (Int 1)
          then e ← getLinkElemForPage (js_sub currentPage (Int 1)) (Some "Prev");
               mret [e]
          else mret []);
  links ← page_links (turns (numPages v)) 1;
  v ← gets this;
  next ← (if js_lt currentPage (numPages v)
          then e ← getLinkElemForPage (js_add currentPage (Int 1)) (Some "Next");
               mret [e]
          else mret []);
  mret (Element "div" ["posts-pagination-bar"] None
          (Text "Page: " :: prev ++ links ++ next)).

(** [displayPosts()] (lines 111 to 128); [cloneNode(true)] of the bar is the
    same value. *)
Definition displayPosts : M state unit :=
  _ ← on_page clear_children;
  v ← gets this;
  if falsy (numPages v) then mret tt
  else
    paginationBar ← getPaginationBar;
    _ ← on_page (appendChild paginationBar);
    v ← gets this;
    _ ← forEach (window v) (fun p =>
          e ← postToElem p; on_page (appendChild e));
    on_page (appendChild paginationBar).

(** [constructor(parentElem, posts, urlParams)] (lines 28 to 47) *)
Definition constructor (parentElem : dataset) (posts : list post)
    (urlParams : loc) : M world view :=
  let indexBaseUrl := strip_from "?" (strip_from "#" (location_href env)) in
  baseUrl ← match truthy (baseUrl_attr parentElem) with
            | Some b =>
                h ← URL_href env b (Some (location_href env)); mret (Some h)
            | None => mret None
            end;
  g ← URLSearchParams_get urlParams "posts_per_page";
  let perPage := derive_perPage g in
  let numPages := derive_numPages posts perPage in
  g' ← URLSearchParams_get urlParams "posts_pages_from_end";
  let pagesFromEnd := derive_pagesFromEnd g' numPages in
  with_this
    {| parentElem := parentElem; indexBaseUrl := indexBaseUrl;
       baseUrl := baseUrl; posts := posts; urlParams := urlParams;
       perPage := perPage; numPages := numPages;
       pagesFromEnd := pagesFromEnd |}
    displayPosts.

(** [await fetch(url)], recorded among the requests. *)
Definition do_fetch (url : string) : M world response :=
  _ ← modify (fun w =>
        {| objects := objects w; childNodes := childNodes w;
           requests := requests w ++ [url] |});
  match fetch env url with
  | Some r => mret r
  | None => throw (TypeError "Failed to fetch")
  end.

(** [static async create(parentElem, urlParams)] (lines 16 to 26); the
    [SyntaxError] is the rejection of [response.json()]. *)
Definition create (parentElem : dataset) (urlParams : loc) : M world view :=
  let postsUrl := or_string (jsonUrl parentElem) "posts.json" in
  response ← do_fetch postsUrl;
  if negb (ok response) then
    throw (Error ("Failed to fetch posts JSON " +:+ postsUrl +:+ ": "
                  +:+ Number_toString (Int (status response))))
  else
    match json response with
    | Some posts => constructor parentElem posts urlParams
    | None => throw (SyntaxError "Unexpected token")
    end.

(** The function the script runs (lines 131 to 139): [displayArea] is what
    [document.getElementById] finds under [gg-posts-display]. *)
Definition main (displayArea : option dataset) : M world unit :=
  match displayArea with
  | Some parentElem =>
      urlParams ← alloc (location_search env);
      _ ← create parentElem urlParams;
      mret tt
  | None => mret tt
  end.

End PostsDisplay.

(** ** What is observed of a rendered page link *)

(** The non-link label: the bare [span]. *)
Definition is_label (e : node) : bool :=
  match e with
  | Element tag _ None _ => String.eqb tag "span"
  | _ => false
  end.

(** An anchor with its target, around the label. *)
Definition is_anchor (e : node) : bool :=
  match e with
  | Element tag _ (Some _) [l] => String.eqb tag "a" && is_label l
  | _ => false
  end.

(** The [span] that [getLinkElemForPage] builds first. *)
Definition label_of (pg : number) (optLabel : option string) : node :=
  Element "span" ["page-link"] None [Text (ToString (or_number optLabel pg))].

(** The parameters of the link to the page at [newPagesFromEnd]. *)
Definition link_params (q : params) (newPagesFromEnd : number) : params :=
  params_set q "posts_pages_from_end" (Number_toString newPagesFromEnd).

(** [s'] differs from [s] at most by objects that [s] did not hold: the
    instance, every object of [s], the container and the requests are the
    same. *)
Definition preserves (s s' : state) : Prop :=
  this s' = this s
  /\ (forall l, is_Some (objects (page s) !! l) ->
        objects (page s') !! l = objects (page s) !! l)
  /\ childNodes (page s') = childNodes (page s)
  /\ requests (page s') = requests (page s).

(** The element [postToElem] returns for [p] on the instance [v], [None]
    when it throws.  [postToElem] reads the instance only. *)
Definition render (env : environment) (v : view) (p : post) : option node :=
  match run (postToElem env p)
          {| this := v;
             page := {| objects := ∅; childNodes := []; requests := [] |} |} with
  | Returns e _ => Some e
  | Throws _ _ => None
  end.

(** A computation that returns [a] or throws the [TypeError] of [new URL],
    in any state and without changing it. *)
Definition fixed {S A : Type} (r : option A) : M S A :=
  match r with
  | Some a => mret a
  | None => throw (TypeError "Invalid URL")
  end.

(** [displayPosts] up to the first [appendChild]: the container emptied. *)
Definition cleared (s : state) : state :=
  {| this := this s;
     page := {| objects := objects (page s); childNodes := [];
                requests := requests (page s) |} |}.

(** [m] never throws an [Error]: what it throws, if anything, is a
    [TypeError] or a [SyntaxError]. *)
Definition no_Error {S A : Type} (m : M S A) : Prop :=
  forall s msg s', run m s <> Throws (Error msg) s'.

(** The base URL the constructor stores, [None] when resolving it throws. *)
Definition stored_base (env : environment) (parentElem : dataset)
    : option (option string) :=
  match truthy (baseUrl_attr parentElem) with
  | Some b =>
      match new_URL env b (Some (location_href env)) with
      | Some h => Some (Some h)
      | None => None
      end
  | None => Some None
  end.

(** The instance as the constructor fills it in, from the pairs [q] of the
    query and the resolved base URL. *)
Definition constructed (env : environment) (parentElem : dataset)
    (posts : list post) (urlParams : loc) (q : params) (baseUrl : option string)
    : view :=
  {| parentElem := parentElem;
     indexBaseUrl := strip_from "?" (strip_from "#" (location_href env));
     baseUrl := baseUrl; posts := posts; urlParams := urlParams;
     perPage := derive_perPage (params_get q "posts_per_page");
     numPages :=
       derive_numPages posts (derive_perPage (params_get q "posts_per_page"));
     pagesFromEnd :=
       derive_pagesFromEnd (params_get q "posts_pages_from_end")
         (derive_numPages posts (derive_perPage (params_get q "posts_per_page")))
  |}.

(** The URL [create] fetches. *)
Definition postsUrl_of (parentElem : dataset) : string :=
  or_string (jsonUrl parentElem) "posts.json".

(** The message of the error [create] throws on a response that is not ok. *)
Definition load_error_message (url : string) (r : response) : string :=
  "Failed to fetch posts JSON " +:+ url +:+ ": " +:+ Number_toString (Int (status r)).

(** The page after one request to [url] and nothing else. *)
Definition requested (url : string) (w : world) : world :=
  {| objects := objects w; childNodes := childNodes w;
     requests := requests w ++ [url] |}.

(** Link-generation calls made one after the other. *)
Fixpoint link_calls (env : environment) (calls : list (number * option string))
    : M state (list node) :=
  match calls with
  | c :: calls' =>
      e ← getLinkElemForPage env c.1 c.2;
      es ← link_calls env calls';
      mret (e :: es)
  | [] => mret []
  end.

(** The data-base-url attribute, when there is one, resolves against the
    location of the page. *)
Definition base_resolves (env : environment) (parentElem : dataset) : Prop :=
  forall b, truthy (baseUrl_attr parentElem) = Some b ->
    is_Some (new_URL env b (Some (location_href env))).

(** ** The pagination as the specification words it

    Used to compare the specification with the code above. *)

(** "perPage = max(1, parse(query.posts_per_page) or 20)", 20 standing in
    when the parameter is absent or is not a number. *)
Definition spec_perPage (g : option string) : Z :=
  Z.max 1 match g with
          | Some s => match parseInt_string s with Int k => k | _ => 20 end
          | None => 20
          end.

(** "end = count(posts) - perPage*pagesFromEnd" *)
Definition spec_end (n p f : Z) : Z := n - p * f.

(** "start = max(0, end - perPage)" *)
Definition spec_start (n p f : Z) : Z := Z.max 0 (spec_end n p f - p).

(** "posts[start:end]" *)
Definition spec_window (ps : list post) (p f : Z) : list post :=
  let n := Z.of_nat (length ps) in
  take (Z.to_nat (spec_end n p f) - Z.to_nat (spec_start n p f))%nat
    (drop (Z.to_nat (spec_start n p f)) ps).

(** "pagesFromEnd is always clamped into [0, max(0, numPages-1)] regardless
    of the input query value". *)
Definition spec_pagesFromEnd_clamped : Prop :=
  forall (g : option string) (m : Z),
    exists f, derive_pagesFromEnd g (Int m) = Int f /\ 0 <= f <= Z.max 0 (m - 1).

(** "create throws if and only if the JSON fetch returns a non-success
    status". *)
Definition spec_create_throws_iff : Prop :=
  forall (env : environment) (parentElem : dataset) (l : loc) (w : world),
    (exists e w', run (create env parentElem l) w = Throws e w')
    <-> (exists r, fetch env (postsUrl_of parentElem) = Some r /\ ok r = false).

(** "When the posts_per_page query parameter is present but non-numeric,
    construction does not throw: perPage and numPages become NaN, [...] and
    the container is cleared with nothing rendered". *)
Definition spec_nonnumeric_perPage : Prop :=
  forall (env : environment) (parentElem : dataset) (ps : list post) (l : loc)
         (w : world) (q : params) (value : string),
    objects w !! l = Some q ->
    params_get q "posts_per_page" = Some value ->
    parseInt_string value = NaN ->
    exists v w',
      run (constructor env parentElem ps l) w = Returns v w'
      /\ perPage v = NaN /\ numPages v = NaN /\ childNodes w' = [].

(** ** Sample data *)

Definition sample_post (i : nat) : post :=
  {| output_file := "post-" +:+ Number_toString (Int (Z.of_nat i)) +:+ ".html";
     title := "Post " +:+ Number_toString (Int (Z.of_nat i));
     post_date := "2024-01-01";
     initial_text := "...";
     thumbnails := ["a.png"; "b.png"];
     i_text := if Nat.even i then Some ["first"; "second"] else None |}.

(** Posts 0 to [n - 1], oldest first. *)
Definition sample_posts (n : nat) : list post := map sample_post (seq 0 n).

(** A resolver for the URLs of the samples: an absolute URL is kept, a
    relative one is appended to an absolute base, anything else throws, as
    does the malformed [https://[]. *)
Definition sample_new_URL (url : string) (base : option string) : option string :=
  if String.eqb url "https://[" then None
  else if String.prefix "https://" url then Some url
  else match base with
       | Some b => if String.prefix "https://" b then Some (b +:+ url) else None
       | None => None
       end.

(** A server that answers every request with [r]. *)
Definition sample_env (r : response) : environment :=
  {| location_href := "https://example.org/blog/?posts_pages_from_end=0#top";
     location_search := [("posts_pages_from_end", "0")];
     fetch := fun _ => Some r;
     new_URL := sample_new_URL;
     encodeURIComponent := fun s => s;
     urlencode := fun s => s |}.

Definition sample_response (n : nat) : response :=
  {| ok := true; status := 200; json := Some (sample_posts n) |}.

Definition sample_parent : dataset :=
  {| jsonUrl := None; baseUrl_attr := Some "https://example.org/blog/" |}.

(** A page whose only object, at reference 0, is the query [q]. *)
Definition sample_world (q : params) : world :=
  {| objects := {[ 0%nat := q ]}; childNodes := []; requests := [] |}.

(** The instance for [ps] with the given page size and position, as the
    constructor derives [numPages]. *)
Definition sample_view (ps : list post) (perPage pagesFromEnd : number) : view :=
  {| parentElem := sample_parent;
     indexBaseUrl := "https://example.org/blog/";
     baseUrl := Some "https://example.org/blog/";
     posts := ps; urlParams := 0%nat; perPage := perPage;
     numPages := derive_numPages ps perPage;
     pagesFromEnd := pagesFromEnd |}.

(** Page 1 of 3 of 45 posts, reached with [?posts_per_page=20]. *)
Definition sample_state : state :=
  {| this := sample_view (sample_posts 45) (Int 20) (Int 2);
     page := sample_world [("posts_per_page", "20")] |}.

(** ** The range of the embedding *)

(** The integers the program's doubles hold exactly, sums and differences
    with small integers included. *)
Definition safe (k : Z) : Prop := - 2 ^ 53 < k < 2 ^ 53.

(** The values of [numPages] on which the loop over the pages ends. *)
Definition finite_pages (numPages : number) : Prop :=
  match numPages with
  | PosInf => False
  | Int m => m < 2 ^ 53
  | _ => True
  end.

(** ** Descriptions used by the further properties *)

(** [c] occurs in [s]. *)
Fixpoint contains_char (c : ascii) (s : string) : bool :=
  match s with
  | String c' s' => Ascii.eqb c' c || contains_char c s'
  | EmptyString => false
  end.

(** [s] holds a line terminator. *)
Fixpoint has_line_terminator (s : string) : bool :=
  match s with
  | String c s' => is_line_terminator c || has_line_terminator s'
  | EmptyString => false
  end.

(** The pairs of [q] under [name], and the others, in their order. *)
Definition pairs_under (name : string) (q : params) : params :=
  List.filter (fun kv => String.eqb kv.1 name) q.

Definition pairs_beside (name : string) (q : params) : params :=
  List.filter (fun kv => negb (String.eqb kv.1 name)) q.

(** An entry of the bar that is not a link: the [span] showing [text]. *)
Definition page_label (text : string) : node :=
  Element "span" ["page-link"] None [Text text].

(** An entry of the bar that is a link: the anchor around the [span]
    showing [text], to [indexBaseUrl] with the query [q] in which
    [posts_pages_from_end] is set to [j]. *)
Definition page_anchor (env : environment) (v : view) (q : params) (j : Z)
    (text : string) : node :=
  Element "a" []
    (Some (indexBaseUrl v +:+ "?" +:+ params_toString env (link_params q (Int j))))
    [page_label text].

(** The element of the link to page [pg] on the instance [v] whose query
    holds the pairs [q]. *)
Definition link_elem (env : environment) (v : view) (q : params) (pg : number)
    (optLabel : option string) : node :=
  if js_strict_eq (js_sub (numPages v) pg) (pagesFromEnd v)
  then label_of pg optLabel
  else Element "a" []
         (Some (indexBaseUrl v +:+ "?"
                +:+ params_toString env (link_params q (js_sub (numPages v) pg))))
         [label_of pg optLabel].

(** The page numbers from [pg] up to [numPages]. *)
Definition page_range (pg : Z) (numPages : number) : list Z :=
  match numPages with
  | Int m => map (fun i => pg + Z.of_nat i) (seq 0 (Z.to_nat (m - pg + 1)))
  | _ => []
  end.

(** The pagination bar of the instance [v] whose query holds the pairs [q]. *)
Definition bar_of (env : environment) (v : view) (q : params) : node :=
  let currentPage := js_sub (numPages v) (pagesFromEnd v) in
  Element "div" ["posts-pagination-bar"] None
    (Text "Page: "
     :: (if js_gt currentPage (Int 1)
         then [link_elem env v q (js_sub currentPage (Int 1)) (Some "Prev")]
         else [])
     ++ map (fun pg => link_elem env v q (Int pg) None) (page_range 1 (numPages v))
     ++ (if js_lt currentPage (numPages v)
         then [link_elem env v q (js_add currentPage (Int 1)) (Some "Next")]
         else [])).

(** The state a computation ends in, returning or throwing. *)
Definition final {S A : Type} (o : outcome S A) : S :=
  match o with
  | Returns _ s | Throws _ s => s
  end.

(** [m] leaves [f] of the state as it was, also when it throws. *)
Definition keeps {S A X : Type} (f : S -> X) (m : M S A) : Prop :=
  forall s, f (final (run m s)) = f s.

(** [postToElem(post)] of [src/gg_posts.js] (lines 36 to 48), the earlier
    copy: other markup, and no [i_text]. *)
Definition postToElem_old (env : environment) (p : post) : M state node :=
  v ← gets this;
  path ← URL_href env (output_file p) (baseUrl v);
  thumbs ← map_indexed (fun i src =>
      src ← URL_href env src (baseUrl v);
      mret ("<a "
            +:+ attr "href"
                  (path +:+ "#img-" +:+ Number_toString (js_add (Int i) (Int 1)))
            +:+ "><img " +:+ attr "src" src +:+ "></a>"))
    0 (thumbnails p);
  let innerHTML :=
    "<b><a " +:+ attr "href" path +:+ ">" +:+ title p +:+ "</a></b> (<em>posted "
    +:+ post_date p +:+ "</em>)<br>" +:+ initial_text p +:+ "<br>"
    +:+ join thumbs in
  mret (Element "div" ["post"] None [Markup innerHTML]).

(** The nodes [l] with the text [, ] between each two. *)
Definition with_commas (l : list node) : list node :=
  match l with
  | x :: l' => x :: flat_map (fun y => [Text ", "; y]) l'
  | [] => []
  end.

(** The anchor of a highlighted phrase of the post at [path]. *)
Definition phrase_link (env : environment) (path text : string) : node :=
  Element "a" ["post-i-link"]
    (Some (path +:+ "#:~:text=" +:+ encodeURIComponent env text)) [Text text].

(** A post that no base makes renderable. *)
Definition broken_post : post :=
  {| output_file := "https://["; title := "Broken"; post_date := "2024-01-01";
     initial_text := "..."; thumbnails := []; i_text := None |}.

(** * Properties *)

(** ** Numbers and [parseInt] *)

Example parseInt_examples :
  parseInt (Str "20") = Int 20 /\ parseInt (Str "  -7px") = Int (-7) /\
  parseInt (Str "0x1F") = Int 31 /\ parseInt (Str "abc") = NaN /\
  parseInt (Str EmptyString) = NaN /\ parseInt (Str "0x") = NaN /\
  parseInt (Str "-0") = Int 0 /\ parseInt (Str "12.9") = Int 12 /\
  parseInt (Num (Int 20)) = Int 20 /\ parseInt (Num (Int (-3))) = Int (-3) /\
  parseInt (Num NaN) = NaN /\ parseInt (Num PosInf) = NaN /\
  parseInt (Num NegInf) = NaN.
Proof. vm_compute. repeat split. Qed.

Example number_examples :
  Math_max (Int 0) NaN = NaN /\ Math_min (Int 2) (Int (-3)) = Int (-3)
  /\ Math_ceil (js_div (Int 45) (Int 20)) = Int 3
  /\ Math_ceil (js_div (Int 45) (Int 0)) = PosInf
  /\ Math_ceil (js_div (Int 0) (Int 0)) = NaN
  /\ Math_ceil (js_div (Int 45) (Int (-5))) = Int (-9)
  /\ js_strict_eq NaN NaN = false /\ falsy NaN = true /\ falsy (Int 0) = true.
Proof. vm_compute. repeat split. Qed.

Example params_examples :
  params_set [("a", "1"); ("posts_pages_from_end", "2"); ("b", "3");
              ("posts_pages_from_end", "4")] "posts_pages_from_end" "0"
  = [("a", "1"); ("posts_pages_from_end", "0"); ("b", "3")]
  /\ params_set [("a", "1")] "posts_pages_from_end" "0"
     = [("a", "1"); ("posts_pages_from_end", "0")]
  /\ params_get [("a", "1"); ("a", "2")] "a" = Some "1"
  /\ params_get [("a", "1")] "b" = None.
Proof. vm_compute. repeat split. Qed.

Example slice_examples :
  Array_slice [1; 2; 3; 4; 5] (Int 1) (Int 3) = [2; 3]
  /\ Array_slice [1; 2; 3; 4; 5] (Int 3) (Int 9) = [4; 5]
  /\ Array_slice [1; 2; 3; 4; 5] (Int 7) (Int 9) = []
  /\ Array_slice [1; 2; 3; 4; 5] (Int (-2)) PosInf = [4; 5]
  /\ Array_slice [1; 2; 3; 4; 5] NaN NaN = [].
Proof. vm_compute. repeat split. Qed.

Example strip_example :
  strip_from "?" (strip_from "#" "https://example.org/blog/?a=1#top?x")
  = "https://example.org/blog/".
Proof. reflexivity. Qed.

(** Evaluates [radix_digit] at the literal character in the goal. *)
Ltac eval_digit :=
  match goal with
  | |- context [radix_digit ?R ?c] =>
      let r := eval vm_compute in (radix_digit R c) in
      change (radix_digit R c) with r
  end.

(** Reading the decimal digits of [d] onto a positive accumulator. *)
Lemma read_digits_acc (d : Decimal.uint) (acc : positive) :
  read_digits 10 (NilEmpty.string_of_uint d) (Z.pos acc)
  = Z.pos (Pos.of_uint_acc d acc).
Proof.
  revert acc; induction d; intros acc; cbn [NilEmpty.string_of_uint read_digits];
    try reflexivity;
    eval_digit;
    cbn [Pos.of_uint_acc]; rewrite <- IHd; f_equal; lia.
Qed.

Lemma read_digits_uint (d : Decimal.uint) :
  read_digits 10 (NilEmpty.string_of_uint d) 0 = Z.of_uint d.
Proof.
  unfold Z.of_uint.
  induction d; cbn [NilEmpty.string_of_uint read_digits Pos.of_uint];
    try reflexivity;
    eval_digit;
    cbn [Z.mul Z.add]; try exact IHd; apply read_digits_acc.
Qed.

Lemma mathInt_uint (d : Decimal.uint) :
  d <> Decimal.Nil ->
  mathInt 10 (NilEmpty.string_of_uint d) = Some (Z.of_uint d).
Proof.
  intros Hd. rewrite <- read_digits_uint.
  destruct d; try congruence; reflexivity.
Qed.

Lemma parse_unsigned_uint (d : Decimal.uint) :
  d <> Decimal.Nil ->
  parse_unsigned (NilEmpty.string_of_uint d) = Some (Z.of_uint d).
Proof.
  intros Hd. rewrite <- (mathInt_uint d Hd).
  destruct d as [|d| | | | | | | | |]; try congruence; try reflexivity.
  destruct d; reflexivity.
Qed.

Lemma to_uint_nonnil (p : positive) : Pos.to_uint p <> Decimal.Nil.
Proof.
  intros H. pose proof (DecimalPos.Unsigned.of_to p) as E.
  rewrite H in E. discriminate E.
Qed.

Lemma parseInt_string_uint (d : Decimal.uint) :
  d <> Decimal.Nil ->
  parseInt_string (NilEmpty.string_of_uint d) = Int (Z.of_uint d).
Proof.
  intros Hd. unfold parseInt_string.
  assert (Ht : trim_start (NilEmpty.string_of_uint d) = NilEmpty.string_of_uint d)
    by (destruct d; reflexivity).
  rewrite Ht.
  assert (Hs : match NilEmpty.string_of_uint d with
               | String "-" rest => (-1, rest)
               | String "+" rest => (1, rest)
               | _ => (1, NilEmpty.string_of_uint d)
               end = (1, NilEmpty.string_of_uint d))
    by (destruct d; reflexivity).
  rewrite Hs, (parse_unsigned_uint d Hd). f_equal. lia.
Qed.

(** [parseInt] reads back the decimal expansion of an integer (in the
    program, of a [safe] integer, whose expansion [String] prints). *)
Lemma parseInt_Int (z : Z) : parseInt (Num (Int z)) = Int z.
Proof.
  unfold parseInt. cbn [ToString Number_toString].
  destruct z as [|p|p]; [reflexivity| |].
  - cbn [Z.to_int NilZero.string_of_int].
    assert (Hn := to_uint_nonnil p).
    replace (NilZero.string_of_uint (Pos.to_uint p))
      with (NilEmpty.string_of_uint (Pos.to_uint p))
      by (destruct (Pos.to_uint p); congruence || reflexivity).
    rewrite (parseInt_string_uint _ Hn). f_equal.
    change (Z.of_uint (Pos.to_uint p)) with (Z.of_int (Z.to_int (Z.pos p))).
    apply DecimalZ.of_to.
  - cbn [Z.to_int NilZero.string_of_int].
    assert (Hn := to_uint_nonnil p).
    replace (NilZero.string_of_uint (Pos.to_uint p))
      with (NilEmpty.string_of_uint (Pos.to_uint p))
      by (destruct (Pos.to_uint p); congruence || reflexivity).
    unfold parseInt_string. cbn [trim_start is_white_space].
    change (is_white_space "-") with false. cbv iota.
    rewrite (parse_unsigned_uint _ Hn). f_equal.
    change (Z.of_uint (Pos.to_uint p)) with (Z.of_int (Z.to_int (Z.pos p))).
    rewrite DecimalZ.of_to. lia.
Qed.

Lemma parseInt_NaN : parseInt (Num NaN) = NaN.
Proof. reflexivity. Qed.

Lemma parseInt_Inf : parseInt (Num PosInf) = NaN /\ parseInt (Num NegInf) = NaN.
Proof. split; reflexivity. Qed.

(** ** The derived pagination *)

Lemma Qceiling_div_pos (n p : Z) :
  0 < p -> Qceiling (inject_Z n / inject_Z p) = (n + p - 1) / p.
Proof.
  intros Hp. destruct p as [|p|p]; try lia.
  unfold Qceiling, Qfloor, Qdiv, Qinv, Qmult, Qopp, inject_Z.
  cbn [Qnum Qden]. rewrite Z.mul_1_r, Pos.mul_1_l.
  pose proof (Z.div_mod (- n) (Z.pos p) ltac:(lia)) as E1.
  pose proof (Z.mod_pos_bound (- n) (Z.pos p) ltac:(lia)) as B1.
  pose proof (Z.div_mod (n + Z.pos p - 1) (Z.pos p) ltac:(lia)) as E2.
  pose proof (Z.mod_pos_bound (n + Z.pos p - 1) (Z.pos p) ltac:(lia)) as B2.
  nia.
Qed.

Lemma Math_ceil_div_pos (n p : Z) :
  0 < p -> Math_ceil (js_div (Int n) (Int p)) = Int ((n + p - 1) / p).
Proof.
  intros Hp. unfold js_div.
  destruct (Z.eqb_spec p 0) as [->|_]; [lia|].
  cbn [Math_ceil]. now rewrite Qceiling_div_pos.
Qed.

(** For a positive page size [numPages] is the ceiling of [n / p]. *)
Lemma derive_numPages_pos (ps : list post) (p : Z) :
  0 < p ->
  derive_numPages ps (Int p) = Int ((Z.of_nat (length ps) + p - 1) / p).
Proof.
  intros Hp. unfold derive_numPages.
  now rewrite Math_ceil_div_pos, parseInt_Int.
Qed.

(** [m = ceil(n / p)]: the least number of pages of size [p] that hold [n]. *)
Lemma ceiling_spec (n p : Z) :
  0 < p -> (((n + p - 1) / p) - 1) * p < n <= ((n + p - 1) / p) * p.
Proof.
  intros Hp.
  pose proof (Z.div_mod (n + p - 1) p ltac:(lia)) as E.
  pose proof (Z.mod_pos_bound (n + p - 1) p ltac:(lia)) as B.
  nia.
Qed.

(** [numPages] is an integer or NaN, whatever the page size. *)
Lemma derive_numPages_cases (ps : list post) (perPage : number) :
  derive_numPages ps perPage = NaN \/ exists m, derive_numPages ps perPage = Int m.
Proof.
  unfold derive_numPages.
  destruct (Math_ceil _) as [| | |z]; [left; reflexivity ..|].
  right. exists z. apply parseInt_Int.
Qed.

(** Without posts [numPages] is 0 or NaN. *)
Lemma derive_numPages_nil (perPage : number) :
  falsy (derive_numPages [] perPage) = true.
Proof.
  unfold derive_numPages. cbn [length Z.of_nat].
  destruct perPage as [| | |p]; try reflexivity.
  unfold js_div. destruct (Z.eqb_spec p 0) as [->|Hp]; [reflexivity|].
  destruct p; try lia; reflexivity.
Qed.

(** A page size of zero makes [numPages] NaN: the quotient is NaN or an
    infinity, and [parseInt] reads neither as a number. *)
Lemma derive_numPages_zero (ps : list post) : derive_numPages ps (Int 0) = NaN.
Proof.
  unfold derive_numPages, js_div. cbn [Z.eqb].
  destruct (Z.of_nat (length ps)); reflexivity.
Qed.

(** The bounds [displayPosts] passes to [slice], for integer fields. *)
Lemma slice_bounds (v : view) (p f : Z) :
  perPage v = Int p -> pagesFromEnd v = Int f ->
  slice_start v = Int (Z.max 0 (Z.of_nat (length (posts v)) - 1 - p * (1 + f)))
  /\ slice_end v = Int (Z.of_nat (length (posts v)) - p * f).
Proof.
  intros Hp Hf. unfold slice_start, slice_end, lastIndex. rewrite Hp, Hf.
  cbn [js_sub js_add js_neg js_mul]. split.
  - unfold Math_max, js_lt.
    destruct (Z.ltb_spec 0 (Z.of_nat (length (posts v)) + - (1) + - (p * (1 + f))));
      f_equal; lia.
  - f_equal. lia.
Qed.

(** [slice] between two indices in range is the segment between them. *)
Lemma Array_slice_in_range {A : Type} (l : list A) (s e : Z) :
  0 <= s -> s <= e -> e <= Z.of_nat (length l) ->
  Array_slice l (Int s) (Int e)
  = take (Z.to_nat (e - s)) (drop (Z.to_nat s) l)
  /\ length (Array_slice l (Int s) (Int e)) = Z.to_nat (e - s).
Proof.
  intros Hs Hse He. unfold Array_slice, relative_index.
  destruct (Z.ltb_spec s 0); [lia|]. destruct (Z.ltb_spec e 0); [lia|].
  rewrite (Z.min_l s), (Z.min_l e), (Z.max_l (e - s)) by lia.
  split; [reflexivity|].
  rewrite length_take, length_drop. lia.
Qed.

(** ** The window of [displayPosts] *)

(** C10.  For a non-empty collection, an integer page size of at least 1,
    [numPages] as the constructor derives it and an integer [pagesFromEnd]
    between 0 and [numPages - 1], the bounds [displayPosts] computes satisfy
    [0 <= start < end <= count(posts)] and the slice it renders is not
    empty. *)
Theorem window_nonempty (v : view) (p m f : Z) :
  posts v <> [] ->
  perPage v = Int p -> 1 <= p ->
  numPages v = derive_numPages (posts v) (perPage v) ->
  numPages v = Int m ->
  pagesFromEnd v = Int f -> 0 <= f <= m - 1 ->
  exists s e,
    slice_start v = Int s /\ slice_end v = Int e /\
    0 <= s /\ s < e /\ e <= Z.of_nat (length (posts v)) /\
    length (window v) = Z.to_nat (e - s) /\ window v <> [].
Proof.
  intros Hne Hp Hp1 Hd Hm Hf Hfm.
  destruct (slice_bounds v p f Hp Hf) as [Hs He].
  rewrite Hp, derive_numPages_pos in Hd by lia.
  rewrite Hm in Hd. injection Hd as ->.
  set (n := Z.of_nat (length (posts v))) in *.
  assert (Hn : 1 <= n) by (destruct (posts v); [congruence | cbn in n; lia]).
  pose proof (ceiling_spec n p ltac:(lia)) as Hc.
  set (m := (n + p - 1) / p) in *.
  assert (Hend : 0 < n - p * f) by nia.
  assert (Hle : n - p * f <= n) by nia.
  exists (Z.max 0 (n - 1 - p * (1 + f))), (n - p * f).
  assert (Hlt : Z.max 0 (n - 1 - p * (1 + f)) < n - p * f) by nia.
  destruct (Array_slice_in_range (posts v) (Z.max 0 (n - 1 - p * (1 + f)))
              (n - p * f) ltac:(lia) ltac:(lia) ltac:(subst n; lia)) as [_ Hlen].
  unfold window. rewrite Hs, He.
  repeat split; try lia.
  intros Hnil. rewrite Hnil in Hlen. cbn in Hlen. lia.
Qed.

Lemma window_nonempty_witness :
  exists s e,
    slice_start (sample_view (sample_posts 45) (Int 20) (Int 1)) = Int s /\
    slice_end (sample_view (sample_posts 45) (Int 20) (Int 1)) = Int e /\
    0 <= s /\ s < e /\ e <= 45 /\
    length (window (sample_view (sample_posts 45) (Int 20) (Int 1)))
    = Z.to_nat (e - s) /\
    window (sample_view (sample_posts 45) (Int 20) (Int 1)) <> [].
Proof.
  apply (window_nonempty (sample_view (sample_posts 45) (Int 20) (Int 1)) 20 3 1).
  - discriminate.
  - reflexivity.
  - lia.
  - reflexivity.
  - vm_compute. reflexivity.
  - reflexivity.
  - lia.
Defined.

(** ** Running a computation *)

Lemma run_bind {S A B : Type} (m : M S A) (f : A -> M S B) (s : S) :
  run (m ≫= f) s =
    match run m s with
    | Returns a s' => run (f a) s'
    | Throws e s' => Throws e s'
    end.
Proof. reflexivity. Qed.

Lemma run_ret {S A : Type} (a : A) (s : S) : run (mret a) s = Returns a s.
Proof. reflexivity. Qed.

Lemma run_gets {S A : Type} (f : S -> A) (s : S) :
  run (gets f) s = Returns (f s) s.
Proof. reflexivity. Qed.

Lemma run_on_page {A : Type} (m : M world A) (s : state) :
  run (on_page m) s =
    match run m (page s) with
    | Returns a w => Returns a {| this := this s; page := w |}
    | Throws e w => Throws e {| this := this s; page := w |}
    end.
Proof. reflexivity. Qed.

(** ** Link generation *)

Section Links.

Variable env : environment.

(** What one call returns and does to the state, when the instance's
    parameters are an allocated object [q]. *)
Lemma getLinkElemForPage_run (s : state) (q : params) (pg : number)
    (optLabel : option string) :
  objects (page s) !! urlParams (this s) = Some q ->
  run (getLinkElemForPage env pg optLabel) s =
    if js_strict_eq (js_sub (numPages (this s)) pg) (pagesFromEnd (this s))
    then Returns (label_of pg optLabel) s
    else
      let q' := link_params q (js_sub (numPages (this s)) pg) in
      Returns
        (Element "a" []
           (Some (indexBaseUrl (this s) +:+ "?" +:+ params_toString env q'))
           [label_of pg optLabel])
        {| this := this s;
           page := {| objects :=
                        <[fresh (dom (objects (page s))) := q']>
                          (<[fresh (dom (objects (page s))) := q]>
                             (objects (page s)));
                      childNodes := childNodes (page s);
                      requests := requests (page s) |} |}.
Proof.
  intros Hq. unfold getLinkElemForPage. cbn [run mbind M_bind gets].
  destruct (js_strict_eq _ _); [reflexivity|].
  cbn [run mbind M_bind on_page URLSearchParams_new alloc deref page this].
  rewrite Hq.
  cbn [run mbind M_bind on_page URLSearchParams_set URLSearchParams_toString
         deref page this objects modify mret M_ret childNodes requests].
  rewrite lookup_insert_eq.
  cbn [run mbind M_bind on_page URLSearchParams_set URLSearchParams_toString
         deref page this objects modify mret M_ret childNodes requests].
  rewrite lookup_insert_eq.
  reflexivity.
Qed.

Lemma preserves_refl (s : state) : preserves s s.
Proof. unfold preserves. auto. Qed.

Lemma preserves_trans (s1 s2 s3 : state) :
  preserves s1 s2 -> preserves s2 s3 -> preserves s1 s3.
Proof.
  intros (Ht & Ho & Hc & Hr) (Ht' & Ho' & Hc' & Hr'). unfold preserves.
  repeat split; try congruence.
  intros l Hl. rewrite Ho', Ho; auto. rewrite Ho; auto.
Qed.

(** A call returns, and writes only to the object it allocates. *)
Lemma getLinkElemForPage_preserves (s : state) (pg : number)
    (optLabel : option string) :
  is_Some (objects (page s) !! urlParams (this s)) ->
  exists e s',
    run (getLinkElemForPage env pg optLabel) s = Returns e s' /\ preserves s s'.
Proof.
  intros [q Hq]. rewrite (getLinkElemForPage_run s q pg optLabel Hq).
  destruct (js_strict_eq _ _).
  - eexists _, _. split; [reflexivity | apply preserves_refl].
  - eexists _, _. split; [reflexivity|].
    unfold preserves. cbn [this page objects childNodes requests].
    repeat split. intros l Hl.
    assert (Hfresh : fresh (dom (objects (page s))) <> l).
    { intros <-. apply elem_of_dom in Hl. exact (is_fresh _ Hl). }
    now rewrite !lookup_insert_ne.
Qed.

(** C5.  For an instance with [numPages = m] and a page number [pg] (any
    integer, in particular 1 to [m]), [getLinkElemForPage] returns the
    bare label exactly when [m - pg] is the current [pagesFromEnd], and an
    anchor around the label for every other page number. *)
Theorem getLinkElemForPage_label_iff (s : state) (q : params) (m pg : Z)
    (optLabel : option string) :
  objects (page s) !! urlParams (this s) = Some q ->
  numPages (this s) = Int m ->
  exists e s',
    run (getLinkElemForPage env (Int pg) optLabel) s = Returns e s'
    /\ (is_label e = true <-> pagesFromEnd (this s) = Int (m - pg))
    /\ (is_anchor e = true <-> pagesFromEnd (this s) <> Int (m - pg)).
Proof.
  intros Hq Hm. rewrite (getLinkElemForPage_run s q _ optLabel Hq), Hm.
  change (js_sub (Int m) (Int pg)) with (Int (m - pg)).
  destruct (pagesFromEnd (this s)) as [| | |f] eqn:Hf; cbn [js_strict_eq].
  1-3: eexists _, _; split; [reflexivity|]; cbn; split; split;
       congruence || discriminate.
  destruct (bool_decide_reflect (Int (m - pg) = Int f)) as [E|E].
  - eexists _, _. split; [reflexivity|]. cbn. split; split; congruence.
  - eexists _, _. split; [reflexivity|]. cbn. split; split;
      congruence || discriminate.
Qed.

(** C8.  Link-generation calls, however many, return and leave the view
    as it was: the instance's fields ([urlParams], [pagesFromEnd],
    [numPages], [perPage], [posts], ...) are the same, the parameter
    object they refer to and every other object that existed hold the
    same pairs, and the container is untouched.  Each call writes
    [posts_pages_from_end] into a copy at a fresh reference. *)
Theorem link_calls_frame (calls : list (number * option string)) (s : state) :
  is_Some (objects (page s) !! urlParams (this s)) ->
  exists es s',
    run (link_calls env calls) s = Returns es s'
    /\ this s' = this s
    /\ objects (page s') !! urlParams (this s)
       = objects (page s) !! urlParams (this s)
    /\ (forall l, is_Some (objects (page s) !! l) ->
          objects (page s') !! l = objects (page s) !! l)
    /\ childNodes (page s') = childNodes (page s)
    /\ length es = length calls.
Proof.
  intros Hs.
  enough (exists es s', run (link_calls env calls) s = Returns es s'
                        /\ preserves s s' /\ length es = length calls)
    as (es & s' & Hrun & (Ht & Ho & Hc & _) & Hl)
    by (exists es, s'; repeat split; auto).
  revert s Hs. induction calls as [|[pg lbl] calls IH]; intros s Hs.
  - exists [], s. repeat split; auto using preserves_refl.
  - destruct (getLinkElemForPage_preserves s pg lbl Hs) as (e & s1 & H1 & P1).
    assert (Hs1 : is_Some (objects (page s1) !! urlParams (this s1))).
    { destruct P1 as (Ht & Ho & _). rewrite Ht, Ho; auto. }
    destruct (IH s1 Hs1) as (es & s2 & H2 & P2 & Hl).
    exists (e :: es), s2. split; [|split].
    + cbn [link_calls fst snd]. rewrite run_bind, H1, run_bind, H2.
      reflexivity.
    + eapply preserves_trans; eauto.
    + cbn. now rewrite Hl.
Qed.

End Links.

Lemma getLinkElemForPage_label_iff_witness :
  exists e s',
    run (getLinkElemForPage (sample_env (sample_response 45)) (Int 1) None)
      sample_state = Returns e s'
    /\ (is_label e = true <-> pagesFromEnd (this sample_state) = Int (3 - 1))
    /\ (is_anchor e = true <-> pagesFromEnd (this sample_state) <> Int (3 - 1)).
Proof.
  apply (getLinkElemForPage_label_iff (sample_env (sample_response 45))
           sample_state [("posts_per_page", "20")]
           3 1 None).
  - vm_compute. reflexivity.
  - vm_compute. reflexivity.
Defined.

Lemma link_calls_frame_witness :
  exists es s',
    run (link_calls (sample_env (sample_response 45))
           [(Int 1, None); (Int 2, Some "Prev"); (Int 3, None)]) sample_state
    = Returns es s'
    /\ this s' = this sample_state
    /\ objects (page s') !! urlParams (this sample_state)
       = objects (page sample_state) !! urlParams (this sample_state)
    /\ (forall l, is_Some (objects (page sample_state) !! l) ->
          objects (page s') !! l = objects (page sample_state) !! l)
    /\ childNodes (page s') = childNodes (page sample_state)
    /\ length es = 3%nat.
Proof.
  apply (link_calls_frame (sample_env (sample_response 45))
           [(Int 1, None); (Int 2, Some "Prev"); (Int 3, None)] sample_state).
  exists [("posts_per_page", "20")]. vm_compute. reflexivity.
Defined.

(** ** Rendering *)

Section Display.

Variable env : environment.

(** The container emptied, as [displayPosts] starts by doing. *)
Lemma displayPosts_falsy (s : state) :
  falsy (numPages (this s)) = true ->
  run (displayPosts env) s =
    Returns tt
      {| this := this s;
         page := {| objects := objects (page s); childNodes := [];
                    requests := requests (page s) |} |}.
Proof.
  intros Hf. unfold displayPosts.
  rewrite run_bind, run_on_page. cbn [clear_children modify run].
  rewrite run_bind, run_gets. cbn [this]. now rewrite Hf.
Qed.

(** C6.  With no posts, and [numPages] as the constructor derives it,
    [displayPosts] returns without throwing and leaves the container
    empty: no pagination bar and no post element. *)
Theorem displayPosts_no_posts (s : state) :
  posts (this s) = [] ->
  numPages (this s) = derive_numPages (posts (this s)) (perPage (this s)) ->
  run (displayPosts env) s =
    Returns tt
      {| this := this s;
         page := {| objects := objects (page s); childNodes := [];
                    requests := requests (page s) |} |}.
Proof.
  intros Hp Hn. apply displayPosts_falsy.
  rewrite Hn, Hp. apply derive_numPages_nil.
Qed.

Lemma page_links_preserves (fuel : nat) (pg : Z) (s : state) :
  is_Some (objects (page s) !! urlParams (this s)) ->
  exists es s', run (page_links env fuel pg) s = Returns es s' /\ preserves s s'.
Proof.
  revert pg s. induction fuel as [|fuel IH]; intros pg s Hs.
  - exists [], s. split; [reflexivity | apply preserves_refl].
  - cbn [page_links]. rewrite run_bind, run_gets.
    destruct (js_le _ _).
    + destruct (getLinkElemForPage_preserves env s (Int pg) None Hs)
        as (e & s1 & H1 & P1).
      assert (Hs1 : is_Some (objects (page s1) !! urlParams (this s1))).
      { destruct P1 as (Ht & Ho & _). rewrite Ht, Ho; auto. }
      destruct (IH (pg + 1) s1 Hs1) as (es & s2 & H2 & P2).
      exists (e :: es), s2. split.
      * rewrite run_bind, H1, run_bind, H2. reflexivity.
      * eapply preserves_trans; eauto.
    + exists [], s. split; [reflexivity | apply preserves_refl].
Qed.

(** The loop over the pages ends within [turns numPages] rounds: more
    fuel changes nothing ([numPages] is never an infinity, see
    [derive_numPages_cases]). *)
Lemma page_links_fuel (fuel extra : nat) (pg : Z) (s : state) :
  is_Some (objects (page s) !! urlParams (this s)) ->
  numPages (this s) <> PosInf ->
  (forall m, numPages (this s) = Int m -> m - pg + 1 <= Z.of_nat fuel) ->
  run (page_links env (fuel + extra) pg) s = run (page_links env fuel pg) s.
Proof.
  revert pg s. induction fuel as [|fuel IH]; intros pg s Hs Hinf Hm.
  - cbn [Nat.add page_links]. rewrite run_ret.
    destruct extra as [|extra]; [reflexivity|].
    cbn [page_links]. rewrite run_bind, run_gets.
    destruct (numPages (this s)) as [| | |m] eqn:E; try reflexivity;
      [congruence|].
    cbn [js_le js_lt]. specialize (Hm m eq_refl).
    destruct (Z.ltb_spec m pg); [reflexivity | lia].
  - cbn [Nat.add page_links]. rewrite !run_bind, !run_gets.
    destruct (js_le _ _); [|reflexivity].
    destruct (getLinkElemForPage_preserves env s (Int pg) None Hs)
      as (e & s1 & H1 & (Ht & Ho & _)).
    rewrite !run_bind, H1, !run_bind.
    rewrite IH; [reflexivity| | |].
    + rewrite Ht, Ho; auto.
    + now rewrite Ht.
    + intros m Hm'. rewrite Ht in Hm'. specialize (Hm m Hm'). lia.
Qed.

Lemma page_links_turns (extra : nat) (s : state) :
  is_Some (objects (page s) !! urlParams (this s)) ->
  numPages (this s) <> PosInf ->
  run (page_links env (turns (numPages (this s)) + extra) 1) s
  = run (page_links env (turns (numPages (this s))) 1) s.
Proof.
  intros Hs Hinf. apply page_links_fuel; auto.
  intros m ->. cbn [turns]. lia.
Qed.

(** The bar is built without touching the instance, the objects that
    exist or the container. *)
Lemma getPaginationBar_preserves (s : state) :
  is_Some (objects (page s) !! urlParams (this s)) ->
  exists bar s', run (getPaginationBar env) s = Returns bar s' /\ preserves s s'.
Proof.
  intros Hs. unfold getPaginationBar. rewrite run_bind, run_gets.
  assert (Hprev : exists prev s1,
    run (if js_gt (js_sub (numPages (this s)) (pagesFromEnd (this s))) (Int 1)
         then e ← getLinkElemForPage env
                    (js_sub (js_sub (numPages (this s)) (pagesFromEnd (this s)))
                       (Int 1)) (Some "Prev");
              mret [e]
         else mret []) s = Returns prev s1 /\ preserves s s1).
  { destruct (js_gt _ _).
    - destruct (getLinkElemForPage_preserves env s
                  (js_sub (js_sub (numPages (this s)) (pagesFromEnd (this s)))
                     (Int 1)) (Some "Prev") Hs) as (e & s1 & H1 & P1).
      exists [e], s1. split; [|exact P1]. now rewrite run_bind, H1.
    - exists [], s. split; [reflexivity | apply preserves_refl]. }
  destruct Hprev as (prev & s1 & H1 & P1).
  rewrite run_bind, H1.
  assert (Hs1 : is_Some (objects (page s1) !! urlParams (this s1))).
  { destruct P1 as (Ht & Ho & _). rewrite Ht, Ho; auto. }
  destruct (page_links_preserves (turns (numPages (this s))) 1 s1 Hs1)
    as (links & s2 & H2 & P2).
  rewrite run_bind, H2, run_bind, run_gets.
  assert (Hs2 : is_Some (objects (page s2) !! urlParams (this s2))).
  { destruct P2 as (Ht & Ho & _). rewrite Ht, Ho; auto. }
  destruct (js_lt _ _).
  - destruct (getLinkElemForPage_preserves env s2
                (js_add (js_sub (numPages (this s)) (pagesFromEnd (this s)))
                   (Int 1)) (Some "Next") Hs2) as (e & s3 & H3 & P3).
    eexists _, s3. split.
    + rewrite run_bind, run_bind, H3. reflexivity.
    + eauto using preserves_trans.
  - eexists _, s2. split.
    + rewrite run_bind. reflexivity.
    + eauto using preserves_trans.
Qed.

(** [postToElem] neither reads nor writes the page. *)
Lemma URL_href_fixed {S : Type} (url : string) (base : option string) (s : S) :
  run (URL_href env url base) s = run (fixed (new_URL env url base)) s.
Proof. unfold URL_href, fixed. now destruct (new_URL env url base). Qed.

Lemma map_indexed_fixed {S A B : Type} (f : Z -> A -> M S B) :
  (forall i x, exists r, forall s, run (f i x) s = run (fixed r) s) ->
  forall l i0, exists r, forall s, run (map_indexed f i0 l) s = run (fixed r) s.
Proof.
  intros Hf. induction l as [|x l IH]; intros i0.
  - exists (Some []). reflexivity.
  - destruct (IH (i0 + 1)) as [r Hr]. destruct (Hf i0 x) as [[y|] Hy].
    + destruct r as [ys|].
      * exists (Some (y :: ys)). intros s. cbn [map_indexed].
        rewrite run_bind, Hy. cbn [fixed]. rewrite run_ret.
        now rewrite run_bind, Hr.
      * exists None. intros s. cbn [map_indexed].
        rewrite run_bind, Hy. cbn [fixed]. rewrite run_ret.
        now rewrite run_bind, Hr.
    + exists None. intros s. cbn [map_indexed]. now rewrite run_bind, Hy.
Qed.

Lemma postToElem_fixed (p : post) (s : state) :
  run (postToElem env p) s = run (fixed (render env (this s) p)) s.
Proof.
  assert (H : forall v, exists r, forall w,
             run (postToElem env p) {| this := v; page := w |}
             = run (fixed r) {| this := v; page := w |}).
  { intros v. unfold postToElem.
    destruct (new_URL env (output_file p) (baseUrl v)) as [path|] eqn:Hpath.
    - destruct (map_indexed_fixed (S := state)
                  (fun i src =>
                     src ← URL_href env src (baseUrl v);
                     mret (thumbnail_link path i src)))
        with (thumbnails p) 0 as [r Hr].
      { intros i x. destruct (new_URL env x (baseUrl v)) as [h|] eqn:Hx.
        - eexists (Some _). intros s0.
          rewrite run_bind, URL_href_fixed, Hx. reflexivity.
        - exists None. intros s0. now rewrite run_bind, URL_href_fixed, Hx. }
      destruct r as [thumbs|].
      + eexists (Some _). intros w.
        rewrite run_bind, run_gets. cbn [this].
        rewrite run_bind, URL_href_fixed, Hpath. cbn [fixed]. rewrite run_ret.
        rewrite run_bind, Hr. cbn [fixed]. rewrite run_ret. reflexivity.
      + exists None. intros w.
        rewrite run_bind, run_gets. cbn [this].
        rewrite run_bind, URL_href_fixed, Hpath. cbn [fixed]. rewrite run_ret.
        rewrite run_bind, Hr. reflexivity.
    - exists None. intros w.
      rewrite run_bind, run_gets. cbn [this].
      now rewrite run_bind, URL_href_fixed, Hpath. }
  destruct (H (this s)) as [r Hr].
  unfold render. rewrite Hr.
  destruct s as [v w]. cbn [this]. rewrite Hr.
  now destruct r.
Qed.

(** Appending the elements of the posts [l], when each of them renders. *)
Lemma forEach_append (l : list post) (elems : list node) (s : state) :
  mapM (render env (this s)) l = Some elems ->
  run (forEach l (fun p => e ← postToElem env p; on_page (appendChild e))) s =
    Returns tt
      {| this := this s;
         page := {| objects := objects (page s);
                    childNodes := childNodes (page s) ++ elems;
                    requests := requests (page s) |} |}.
Proof.
  revert elems s. induction l as [|p l IH]; intros elems s Hm.
  - injection Hm as <-. cbn [forEach]. rewrite run_ret, app_nil_r.
    now destruct s as [v [o c r]].
  - cbn [mapM] in Hm.
    destruct (render env (this s) p) as [e|] eqn:He; [|discriminate].
    cbn [mbind option_bind] in Hm.
    destruct (mapM (render env (this s)) l) as [es|] eqn:Hes; [|discriminate].
    injection Hm as <-.
    cbn [forEach]. rewrite run_bind, run_bind, postToElem_fixed, He.
    cbn [fixed]. rewrite run_ret, run_on_page.
    cbn [appendChild modify run].
    rewrite (IH es) by exact Hes.
    cbn [this page objects childNodes requests].
    now rewrite <- app_assoc.
Qed.

(** What [displayPosts] renders when there are pages: the bar, the
    elements of the posts of [window], in their order, and the bar again. *)
Lemma displayPosts_run (s : state) (elems : list node) :
  is_Some (objects (page s) !! urlParams (this s)) ->
  falsy (numPages (this s)) = false ->
  mapM (render env (this s)) (window (this s)) = Some elems ->
  exists bar s1,
    run (getPaginationBar env) (cleared s) = Returns bar s1
    /\ preserves (cleared s) s1
    /\ run (displayPosts env) s =
         Returns tt
           {| this := this s;
              page := {| objects := objects (page s1);
                         childNodes := bar :: elems ++ [bar];
                         requests := requests (page s) |} |}.
Proof.
  intros Hs Hf Hm.
  destruct (getPaginationBar_preserves (cleared s) Hs) as (bar & s1 & H1 & P1).
  exists bar, s1. split; [exact H1|]. split; [exact P1|].
  destruct P1 as (Ht & Ho & Hc & Hr).
  cbn [cleared this page childNodes requests] in *.
  unfold displayPosts.
  rewrite run_bind, run_on_page. cbn [clear_children modify run].
  rewrite run_bind, run_gets. cbn [this]. rewrite Hf.
  change {| this := this s;
            page := {| objects := objects (page s); childNodes := [];
                       requests := requests (page s) |} |} with (cleared s).
  rewrite run_bind, H1, run_bind, run_on_page. cbn [appendChild modify run].
  rewrite run_bind, run_gets. cbn [this]. rewrite Ht.
  rewrite run_bind, (forEach_append _ elems) by exact Hm.
  rewrite run_on_page.
  cbn [appendChild modify run this page objects childNodes requests].
  rewrite Hc, Hr. reflexivity.
Qed.

End Display.

Lemma displayPosts_no_posts_witness :
  run (displayPosts (sample_env (sample_response 0)))
    {| this := sample_view [] (Int 20) (Int 0); page := sample_world [] |}
  = Returns tt
      {| this := sample_view [] (Int 20) (Int 0);
         page := {| objects := objects (sample_world []); childNodes := [];
                    requests := [] |} |}.
Proof.
  apply (displayPosts_no_posts (sample_env (sample_response 0))
           {| this := sample_view [] (Int 20) (Int 0); page := sample_world [] |});
    reflexivity.
Defined.

(** ** Construction *)

Section Construction.

Variable env : environment.

(** *** No method throws an [Error] *)

Lemma no_Error_bind {S A B : Type} (m : M S A) (f : A -> M S B) :
  no_Error m -> (forall a, no_Error (f a)) -> no_Error (m ≫= f).
Proof.
  intros Hm Hf s msg s'. rewrite run_bind.
  destruct (run m s) as [a s1|e s1] eqn:E.
  - apply Hf.
  - intros H. injection H as -> ->. exact (Hm _ _ _ E).
Qed.

Lemma no_Error_ret {S A : Type} (a : A) : no_Error (mret a : M S A).
Proof. intros s msg s'. discriminate. Qed.

Lemma no_Error_gets {S A : Type} (f : S -> A) : no_Error (gets f).
Proof. intros s msg s'. discriminate. Qed.

Lemma no_Error_modify {S : Type} (f : S -> S) : no_Error (modify f).
Proof. intros s msg s'. discriminate. Qed.

Lemma no_Error_throw_TypeError {S A : Type} (m : string) :
  no_Error (throw (TypeError m) : M S A).
Proof. intros s msg s'. discriminate. Qed.

Lemma no_Error_on_page {A : Type} (m : M world A) :
  no_Error m -> no_Error (on_page m).
Proof.
  intros Hm s msg s'. rewrite run_on_page.
  destruct (run m (page s)) as [a w|e w] eqn:E; [discriminate|].
  intros H. injection H as -> _. exact (Hm _ _ _ E).
Qed.

Lemma no_Error_with_this {A : Type} (v : view) (m : M state A) :
  no_Error m -> no_Error (with_this v m).
Proof.
  intros Hm w msg w'. unfold with_this. cbn [run].
  destruct (run m _) as [a s|e s] eqn:E; [discriminate|].
  intros H. injection H as -> _. exact (Hm _ _ _ E).
Qed.

Lemma no_Error_deref (l : loc) : no_Error (deref l).
Proof.
  intros w msg w'. unfold deref. cbn [run].
  destruct (objects w !! l); discriminate.
Qed.

Lemma no_Error_alloc (q : params) : no_Error (alloc q).
Proof. intros w msg w'. discriminate. Qed.

Lemma no_Error_URL_href {S : Type} (url : string) (base : option string) :
  no_Error (URL_href env url base : M S string).
Proof.
  unfold URL_href. destruct (new_URL env url base);
    [apply no_Error_ret | apply no_Error_throw_TypeError].
Qed.

Lemma no_Error_forEach {S A : Type} (l : list A) (f : A -> M S unit) :
  (forall x, no_Error (f x)) -> no_Error (forEach l f).
Proof.
  intros Hf. induction l as [|x l IH]; cbn [forEach].
  - apply no_Error_ret.
  - apply no_Error_bind; auto.
Qed.

Lemma no_Error_map_indexed {S A B : Type} (f : Z -> A -> M S B) (l : list A) :
  (forall i x, no_Error (f i x)) -> forall i0, no_Error (map_indexed f i0 l).
Proof.
  intros Hf. induction l as [|x l IH]; intros i0; cbn [map_indexed].
  - apply no_Error_ret.
  - apply no_Error_bind; [apply Hf|]. intros y.
    apply no_Error_bind; [apply IH|]. intros ys. apply no_Error_ret.
Qed.

(** Splits a method along its binds and branches. *)
Ltac no_Error_step :=
  first
    [ apply no_Error_ret | apply no_Error_gets | apply no_Error_modify
    | apply no_Error_throw_TypeError | apply no_Error_deref
    | apply no_Error_URL_href
    | apply no_Error_on_page | apply no_Error_with_this
    | apply no_Error_forEach; intros ?
    | apply no_Error_map_indexed; intros ? ?
    | apply no_Error_bind; [|intros ?]
    | match goal with
      | |- no_Error (if ?b then _ else _) => destruct b
      | |- no_Error (match ?o with Some _ => _ | None => _ end) => destruct o
      end ].

Lemma no_Error_getLinkElemForPage (pg : number) (optLabel : option string) :
  no_Error (getLinkElemForPage env pg optLabel).
Proof.
  unfold getLinkElemForPage, URLSearchParams_new, URLSearchParams_set,
    URLSearchParams_toString.
  repeat no_Error_step. intros w msg w'. discriminate.
Qed.

Lemma no_Error_page_links (fuel : nat) (pg : Z) :
  no_Error (page_links env fuel pg).
Proof.
  revert pg. induction fuel as [|fuel IH]; intros pg; cbn [page_links].
  - apply no_Error_ret.
  - apply no_Error_bind; [apply no_Error_gets|]. intros v.
    destruct (js_le _ _); [|apply no_Error_ret].
    apply no_Error_bind; [apply no_Error_getLinkElemForPage|]. intros e.
    apply no_Error_bind; [apply IH|]. intros es. apply no_Error_ret.
Qed.

Lemma no_Error_getPaginationBar : no_Error (getPaginationBar env).
Proof.
  unfold getPaginationBar.
  repeat first [ apply no_Error_getLinkElemForPage | apply no_Error_page_links
               | no_Error_step ].
Qed.

Lemma no_Error_postToElem (p : post) : no_Error (postToElem env p).
Proof. unfold postToElem. repeat no_Error_step. Qed.

Lemma no_Error_displayPosts : no_Error (displayPosts env).
Proof.
  unfold displayPosts, clear_children, appendChild.
  repeat first [ apply no_Error_getPaginationBar | apply no_Error_postToElem
               | no_Error_step ].
Qed.

Lemma no_Error_constructor (parentElem : dataset) (ps : list post) (l : loc) :
  no_Error (constructor env parentElem ps l).
Proof.
  unfold constructor, URLSearchParams_get.
  repeat first [ apply no_Error_displayPosts | no_Error_step ].
Qed.

(** *** The constructor *)

(** The constructor fills in the fields and runs [displayPosts]; it throws
    before that when the base URL does not resolve. *)
Lemma constructor_run (parentElem : dataset) (ps : list post) (l : loc)
    (w : world) (q : params) :
  objects w !! l = Some q ->
  run (constructor env parentElem ps l) w =
    match stored_base env parentElem with
    | Some base =>
        run (with_this (constructed env parentElem ps l q base)
               (displayPosts env)) w
    | None => Throws (TypeError "Invalid URL") w
    end.
Proof.
  intros Hq. unfold constructor, stored_base, URLSearchParams_get.
  rewrite run_bind.
  destruct (truthy (baseUrl_attr parentElem)) as [b|].
  - rewrite run_bind. unfold URL_href.
    destruct (new_URL env b (Some (location_href env))) as [h|];
      [|reflexivity].
    rewrite !run_ret, run_bind, run_bind. unfold deref at 1. cbn [run].
    rewrite Hq, run_ret, run_bind, run_bind. unfold deref at 1. cbn [run].
    rewrite Hq, run_ret. reflexivity.
  - rewrite run_ret, run_bind, run_bind. unfold deref at 1. cbn [run].
    rewrite Hq, run_ret, run_bind, run_bind. unfold deref at 1. cbn [run].
    rewrite Hq, run_ret. reflexivity.
Qed.

Lemma base_resolves_stored (parentElem : dataset) :
  base_resolves env parentElem -> is_Some (stored_base env parentElem).
Proof.
  unfold base_resolves, stored_base. intros H.
  destruct (truthy (baseUrl_attr parentElem)) as [b|]; [|eauto].
  destruct (H b eq_refl) as [h ->]. eauto.
Qed.

(** A page size that is NaN makes [numPages] NaN. *)
Lemma derive_numPages_NaN (ps : list post) : derive_numPages ps NaN = NaN.
Proof. reflexivity. Qed.

(** C9, amended.  When [posts_per_page] is present with a value that is
    not empty and that [parseInt] reads as NaN, and the base URL of the
    container (if any) resolves, the constructor returns: [perPage],
    [numPages] and [pagesFromEnd] are NaN, [displayPosts] takes its early
    return, and the container is left empty, whatever the posts. *)
Theorem constructor_nonnumeric_perPage (parentElem : dataset)
    (ps : list post) (l : loc) (w : world) (q : params) (value : string) :
  objects w !! l = Some q ->
  params_get q "posts_per_page" = Some value ->
  value <> EmptyString ->
  parseInt_string value = NaN ->
  base_resolves env parentElem ->
  exists v,
    run (constructor env parentElem ps l) w =
      Returns v {| objects := objects w; childNodes := [];
                   requests := requests w |}
    /\ posts v = ps
    /\ perPage v = NaN /\ numPages v = NaN /\ pagesFromEnd v = NaN.
Proof.
  intros Hq Hg Hne Hnan Hbase.
  rewrite (constructor_run parentElem ps l w q Hq).
  destruct (base_resolves_stored parentElem Hbase) as [base ->].
  assert (Hp : derive_perPage (params_get q "posts_per_page") = NaN).
  { rewrite Hg. unfold derive_perPage, or_number, truthy.
    destruct value; [congruence|]. exact Hnan. }
  exists (constructed env parentElem ps l q base).
  unfold with_this. cbn [run].
  rewrite displayPosts_falsy
    by (cbn [this constructed numPages]; now rewrite Hp).
  cbn [this page constructed posts perPage numPages pagesFromEnd
         objects childNodes requests].
  rewrite Hp. repeat split.
Qed.

(** *** [create] *)

(** C7, amended.  [create] throws an [Error] exactly when the fetch
    returns a response that is not ok; the message then names the URL and
    the status, the URL was requested once, and the container and the
    objects are as they were: nothing was rendered.  (It also throws,
    other exceptions, when the request fails, when the body is not JSON
    and when the constructor does.) *)
Theorem create_load_error (parentElem : dataset) (l : loc) (w w' : world)
    (msg : string) :
  run (create env parentElem l) w = Throws (Error msg) w'
  <-> exists r,
        fetch env (postsUrl_of parentElem) = Some r
        /\ ok r = false
        /\ msg = load_error_message (postsUrl_of parentElem) r
        /\ w' = requested (postsUrl_of parentElem) w.
Proof.
  unfold create. fold (postsUrl_of parentElem).
  rewrite run_bind. unfold do_fetch. rewrite run_bind. cbn [modify run].
  fold (requested (postsUrl_of parentElem) w).
  destruct (fetch env (postsUrl_of parentElem)) as [r|].
  - rewrite run_ret. destruct (ok r) eqn:Hokr; cbn [negb].
    + split.
      * destruct (json r) as [ps|]; [|discriminate].
        intros H. exfalso. exact (no_Error_constructor _ _ _ _ _ _ H).
      * intros (r' & Hr & Hok & _). injection Hr as <-. congruence.
    + split.
      * intros H. injection H as <- <-. exists r. repeat split. exact Hokr.
      * intros (r' & Hr & _ & -> & ->). injection Hr as <-. reflexivity.
  - split; [discriminate|]. intros (r' & Hr & _). discriminate.
Qed.

(** Without posts the constructor renders nothing. *)
Lemma constructor_no_posts (parentElem : dataset) (l : loc) (w : world)
    (q : params) :
  objects w !! l = Some q ->
  base_resolves env parentElem ->
  exists v,
    run (constructor env parentElem [] l) w =
      Returns v {| objects := objects w; childNodes := [];
                   requests := requests w |}.
Proof.
  intros Hq Hbase. rewrite (constructor_run parentElem [] l w q Hq).
  destruct (base_resolves_stored parentElem Hbase) as [base ->].
  eexists. unfold with_this. cbn [run].
  rewrite displayPosts_falsy
    by (cbn [this constructed numPages]; apply derive_numPages_nil).
  reflexivity.
Qed.

(** *** The script *)

(** [main] hands [create] a reference to an object it has just allocated:
    the parameters of an instance are always an object of the store. *)
Lemma main_run (parentElem : dataset) (w : world) :
  exists l w1,
    run (alloc (location_search env)) w = Returns l w1
    /\ objects w1 !! l = Some (location_search env)
    /\ run (main env (Some parentElem)) w =
         match run (create env parentElem l) w1 with
         | Returns _ w' => Returns tt w'
         | Throws e w' => Throws e w'
         end.
Proof.
  eexists _, _. split; [reflexivity|]. split.
  - cbn [objects]. apply lookup_insert_eq.
  - cbn [main]. rewrite run_bind. cbn [alloc run]. rewrite run_bind.
    destruct (run (create env parentElem _) _); reflexivity.
Qed.

End Construction.

(** The script on 45 posts with [?posts_pages_from_end=0]: one request, and
    the bar, 21 posts and the bar again in the container. *)
Example main_sample :
  exists w,
    run (main (sample_env (sample_response 45)) (Some sample_parent))
      {| objects := ∅; childNodes := []; requests := [] |} = Returns tt w
    /\ requests w = ["posts.json"]
    /\ length (childNodes w) = 23%nat.
Proof. eexists. split; [vm_compute; reflexivity|]. split; reflexivity. Qed.

Lemma constructor_nonnumeric_perPage_witness :
  exists v,
    run (constructor (sample_env (sample_response 45)) sample_parent
           (sample_posts 45) 0%nat)
      (sample_world [("posts_per_page", "abc")])
    = Returns v {| objects := objects (sample_world [("posts_per_page", "abc")]);
                   childNodes := []; requests := [] |}
    /\ posts v = sample_posts 45
    /\ perPage v = NaN /\ numPages v = NaN /\ pagesFromEnd v = NaN.
Proof.
  apply (constructor_nonnumeric_perPage (sample_env (sample_response 45))
           sample_parent (sample_posts 45) 0%nat
           (sample_world [("posts_per_page", "abc")])
           [("posts_per_page", "abc")] "abc").
  - vm_compute. reflexivity.
  - reflexivity.
  - discriminate.
  - reflexivity.
  - intros b Hb. injection Hb as <-. vm_compute. eauto.
Defined.

(** C9 as stated fails on the code: an empty value is present and is not a
    number ([parseInt] reads it as NaN), but [||] replaces it by 20, so the
    page is rendered; and a base URL that does not resolve makes the
    constructor throw, whatever the page size. *)
Lemma nonnumeric_perPage_counterexample :
  ~ spec_nonnumeric_perPage
  /\ (exists v w,
        run (constructor (sample_env (sample_response 1)) sample_parent
               (sample_posts 1) 0%nat)
          (sample_world [("posts_per_page", EmptyString)]) = Returns v w
        /\ perPage v = Int 20 /\ numPages v = Int 1
        /\ length (childNodes w) = 3%nat)
  /\ run (constructor (sample_env (sample_response 1))
            {| jsonUrl := None; baseUrl_attr := Some "https://[" |}
            (sample_posts 1) 0%nat)
       (sample_world [("posts_per_page", "abc")])
     = Throws (TypeError "Invalid URL") (sample_world [("posts_per_page", "abc")]).
Proof.
  split; [|split].
  - intros H.
    destruct (H (sample_env (sample_response 1)) sample_parent (sample_posts 1)
                0%nat (sample_world [("posts_per_page", EmptyString)])
                [("posts_per_page", EmptyString)] EmptyString)
      as (v & w & Hrun & Hp & _).
    + vm_compute. reflexivity.
    + reflexivity.
    + reflexivity.
    + vm_compute in Hrun. injection Hrun as <- _. discriminate Hp.
  - eexists _, _. split; [vm_compute; reflexivity|]. repeat split.
  - vm_compute. reflexivity.
Qed.

Lemma create_load_error_witness :
  run (create (sample_env {| ok := false; status := 404; json := None |})
         sample_parent 0%nat) (sample_world [])
  = Throws (Error "Failed to fetch posts JSON posts.json: 404")
      {| objects := objects (sample_world []); childNodes := [];
         requests := ["posts.json"] |}.
Proof.
  apply (create_load_error
           (sample_env {| ok := false; status := 404; json := None |})
           sample_parent 0%nat (sample_world [])).
  exists {| ok := false; status := 404; json := None |}.
  repeat split.
Defined.

(** C7 as stated fails on the code: a response that is ok whose body is not
    JSON makes [create] throw as well. *)
Lemma create_throws_iff_counterexample :
  ~ spec_create_throws_iff
  /\ run (create (sample_env {| ok := true; status := 200; json := None |})
            sample_parent 0%nat) (sample_world [])
     = Throws (SyntaxError "Unexpected token")
         {| objects := objects (sample_world []); childNodes := [];
            requests := ["posts.json"] |}.
Proof.
  split; [|reflexivity].
  intros H.
  destruct (proj1 (H (sample_env {| ok := true; status := 200; json := None |})
                     sample_parent 0%nat (sample_world [])))
    as (r & Hr & Hok).
  - eexists _, _. reflexivity.
  - injection Hr as <-. discriminate Hok.
Qed.

(** ** The query parameters *)

(** The decimal expansion of an integer is not empty. *)
Lemma Number_toString_truthy (k : Z) :
  truthy (Some (Number_toString (Int k))) = Some (Number_toString (Int k)).
Proof.
  cbn [Number_toString]. destruct k as [|p|p]; [reflexivity| |];
    cbn [Z.to_int NilZero.string_of_int]; [|reflexivity].
  pose proof (to_uint_nonnil p) as Hn.
  destruct (Pos.to_uint p); try congruence; reflexivity.
Qed.

(** C4, amended.  [perPage] is [parseInt(value or 20)], with no clamp to
    1: it is 20 when [posts_per_page] is absent or empty; NaN when the value
    is not empty and has no integer prefix; and, when the prefix writes an
    integer [k] below 2^53 in magnitude, exactly [k], which may be zero or
    negative (the decimal expansion of any such [k] gives [k]). *)
Theorem derive_perPage_parsed (g : option string) :
  (truthy g = None -> derive_perPage g = Int 20)
  /\ (forall value,
        truthy g = Some value -> parseInt_string value = NaN ->
        derive_perPage g = NaN)
  /\ (forall value k,
        truthy g = Some value -> parseInt_string value = Int k -> safe k ->
        derive_perPage g = Int k)
  /\ derive_perPage None = Int 20
  /\ derive_perPage (Some EmptyString) = Int 20
  /\ forall k, safe k -> derive_perPage (Some (Number_toString (Int k))) = Int k.
Proof.
  unfold derive_perPage, or_number.
  split; [|split; [|split; [|split; [reflexivity | split; [reflexivity|]]]]].
  - intros ->. apply parseInt_Int.
  - intros value -> Hv. exact Hv.
  - intros value k -> Hv _. exact Hv.
  - intros k _. rewrite Number_toString_truthy. apply parseInt_Int.
Qed.

Lemma derive_perPage_parsed_witness :
  derive_perPage (Some "0") = Int 0 /\ derive_perPage None = Int 20.
Proof.
  split.
  - apply (proj1 (proj2 (proj2 (derive_perPage_parsed (Some "0")))) "0" 0).
    + reflexivity.
    + reflexivity.
    + unfold safe. lia.
  - apply (proj1 (derive_perPage_parsed None)). reflexivity.
Defined.

(** C4 as stated fails on the code: the value 0 is kept, not raised to 1,
    and a value that is not a number gives NaN, not 20. *)
Lemma derive_perPage_counterexample :
  ~ (forall g, derive_perPage g = Int (spec_perPage g))
  /\ derive_perPage (Some "0") = Int 0 /\ spec_perPage (Some "0") = 1
  /\ derive_perPage (Some "abc") = NaN /\ spec_perPage (Some "abc") = 20.
Proof.
  split; [|repeat split].
  intros H. specialize (H (Some "abc")). discriminate H.
Qed.

(** The default position: the first page, counted from the end. *)
Lemma defaultPagesFromEnd_Int (m : Z) :
  defaultPagesFromEnd (Int m) = Int (Z.max 0 (m - 1)).
Proof.
  unfold defaultPagesFromEnd, Math_max. cbn [js_sub js_add js_neg js_lt].
  destruct (Z.ltb_spec 0 (m + - (1))); f_equal; lia.
Qed.

Lemma Math_min_Int (a b : Z) : Math_min (Int a) (Int b) = Int (Z.min a b).
Proof.
  unfold Math_min. cbn [js_lt]. destruct (Z.ltb_spec b a); f_equal; lia.
Qed.

(** C2, amended.  For a [numPages] below 2^53 in magnitude, [pagesFromEnd]
    is the smaller of [defaultPagesFromEnd = max(0, numPages - 1)] and
    [parseInt] of the value of [posts_pages_from_end], the default standing
    in for an absent or empty value.  It is clamped from above only: a value
    whose prefix writes an integer [k] below 2^53 in magnitude gives
    [min(max(0, numPages - 1), k)], which never exceeds [max(0, numPages - 1)]
    and is negative when [k] is; a value that is not empty and has no
    integer prefix gives NaN, and so does a [numPages] that is NaN. *)
Theorem derive_pagesFromEnd_clamped_above (g : option string) (m : Z) :
  safe m ->
  (truthy g = None -> derive_pagesFromEnd g (Int m) = Int (Z.max 0 (m - 1)))
  /\ (forall value k,
        truthy g = Some value -> parseInt_string value = Int k -> safe k ->
        derive_pagesFromEnd g (Int m) = Int (Z.min (Z.max 0 (m - 1)) k)
        /\ Z.min (Z.max 0 (m - 1)) k <= Z.max 0 (m - 1)
        /\ (k < 0 -> Z.min (Z.max 0 (m - 1)) k = k))
  /\ (forall value,
        truthy g = Some value -> parseInt_string value = NaN ->
        derive_pagesFromEnd g (Int m) = NaN)
  /\ derive_pagesFromEnd g NaN = NaN.
Proof.
  intros _. unfold derive_pagesFromEnd, or_number.
  rewrite defaultPagesFromEnd_Int.
  split; [|split; [|split; [|reflexivity]]].
  - intros ->. rewrite parseInt_Int, Math_min_Int. f_equal. lia.
  - intros value k -> Hv _. unfold parseInt. cbn [ToString]. rewrite Hv.
    split; [apply Math_min_Int | lia].
  - intros value -> Hv. unfold parseInt. cbn [ToString]. now rewrite Hv.
Qed.

Lemma derive_pagesFromEnd_clamped_above_witness :
  derive_pagesFromEnd (Some "7") (Int 3) = Int (Z.min (Z.max 0 (3 - 1)) 7)
  /\ Z.min (Z.max 0 (3 - 1)) 7 <= Z.max 0 (3 - 1)
  /\ (7 < 0 -> Z.min (Z.max 0 (3 - 1)) 7 = 7).
Proof.
  apply (proj1 (proj2 (derive_pagesFromEnd_clamped_above (Some "7") 3
                         ltac:(unfold safe; lia))) "7" 7).
  - reflexivity.
  - reflexivity.
  - unfold safe. lia.
Defined.

(** C2 as stated fails on the code: nothing clamps from below, so a
    negative value is kept, and a value that is not a number gives NaN. *)
Lemma derive_pagesFromEnd_counterexample :
  ~ spec_pagesFromEnd_clamped
  /\ derive_pagesFromEnd (Some "-3") (derive_numPages (sample_posts 45) (Int 20))
     = Int (-3)
  /\ derive_pagesFromEnd (Some "abc") (derive_numPages (sample_posts 45) (Int 20))
     = NaN.
Proof.
  split; [|split; vm_compute; reflexivity].
  intros H. destruct (H (Some "-3") 3) as (f & Hf & Hlo & _).
  vm_compute in Hf. injection Hf as <-. lia.
Qed.

(** ** The window against the specification *)

(** C1, at the input where the code departs from it.  For 45 posts, the
    default page size 20 and [posts_pages_from_end=0], the constructor
    renders [posts[24:45]], 21 posts between the two bars, where the
    specification has [posts[25:45]], the 20 newest: the start of the slice
    is one too low. *)
Theorem window_45_20_0 :
  exists v w,
    run (constructor (sample_env (sample_response 45)) sample_parent
           (sample_posts 45) 0%nat)
      (sample_world [("posts_pages_from_end", "0")]) = Returns v w
    /\ perPage v = Int 20 /\ numPages v = Int 3 /\ pagesFromEnd v = Int 0
    /\ slice_start v = Int 24 /\ slice_end v = Int 45
    /\ window v = drop 24 (sample_posts 45)
    /\ mapM (render (sample_env (sample_response 45)) v) (window v)
       = Some (take 21 (drop 1 (childNodes w)))
    /\ length (childNodes w) = 23%nat
    /\ spec_window (sample_posts 45) 20 0 = drop 25 (sample_posts 45)
    /\ window v <> spec_window (sample_posts 45) 20 0.
Proof.
  eexists _, _. split; [vm_compute; reflexivity|].
  repeat split; try (vm_compute; reflexivity).
  vm_compute. discriminate.
Qed.

(** C3, at the input where the code departs from it.  For 45 posts and
    page size 20 there are [ceil(45/20) = 3] pages, and the windows of the
    last two, [posts[24:45]] and [posts[4:25]], both hold the post at
    index 24: the windows cover the collection but overlap. *)
Theorem windows_overlap_45_20 :
  derive_numPages (sample_posts 45) (Int 20) = Int 3
  /\ window (sample_view (sample_posts 45) (Int 20) (Int 0))
     = take 21 (drop 24 (sample_posts 45))
  /\ window (sample_view (sample_posts 45) (Int 20) (Int 1))
     = take 21 (drop 4 (sample_posts 45))
  /\ window (sample_view (sample_posts 45) (Int 20) (Int 2))
     = take 5 (sample_posts 45)
  /\ window (sample_view (sample_posts 45) (Int 20) (Int 0)) !! 0%nat
     = Some (sample_post 24)
  /\ window (sample_view (sample_posts 45) (Int 20) (Int 1)) !! 20%nat
     = Some (sample_post 24)
  /\ sample_posts 45 !! 24%nat = Some (sample_post 24).
Proof. repeat split; vm_compute; reflexivity. Qed.

(** The end of the slice is the specification's; the start, before the
    clamp at 0, is one below the specification's [end - perPage]. *)
Lemma slice_bounds_spec (v : view) (p f : Z) :
  perPage v = Int p -> pagesFromEnd v = Int f ->
  slice_end v = Int (spec_end (Z.of_nat (length (posts v))) p f)
  /\ slice_start v
     = Int (Z.max 0 (spec_end (Z.of_nat (length (posts v))) p f - p - 1)).
Proof.
  intros Hp Hf. destruct (slice_bounds v p f Hp Hf) as [Hs He].
  unfold spec_end. split; [exact He|]. rewrite Hs. f_equal. lia.
Qed.

(** The part of C3 that holds: every post lies in the window of one of the
    pages 0 to [numPages - 1]. *)
Lemma windows_cover (ps : list post) (p i : Z) :
  1 <= p -> 0 <= i < Z.of_nat (length ps) ->
  exists f,
    0 <= f <= (Z.of_nat (length ps) + p - 1) / p - 1
    /\ forall v, posts v = ps -> perPage v = Int p -> pagesFromEnd v = Int f ->
         exists s e, slice_start v = Int s /\ slice_end v = Int e /\ s <= i < e.
Proof.
  intros Hp Hi. set (n := Z.of_nat (length ps)) in *.
  exists ((n - 1 - i) / p).
  pose proof (Z.div_mod (n - 1 - i) p ltac:(lia)) as E.
  pose proof (Z.mod_pos_bound (n - 1 - i) p ltac:(lia)) as B.
  pose proof (ceiling_spec n p ltac:(lia)) as C.
  assert (H0 : 0 <= (n - 1 - i) / p) by (apply Z.div_pos; lia).
  split; [split; [exact H0 | nia]|].
  intros v Hv Hpp Hf. destruct (slice_bounds v p _ Hpp Hf) as [Hs He].
  rewrite Hv in Hs, He. fold n in Hs, He.
  eexists _, _. split; [exact Hs|]. split; [exact He|]. nia.
Qed.

(** The defect behind C1 and C3: two consecutive pages share a post, the
    one just below the end of the older page. *)
Lemma consecutive_windows_overlap (v0 v1 : view) (p f : Z) :
  posts v1 = posts v0 ->
  perPage v0 = Int p -> perPage v1 = Int p -> 1 <= p ->
  pagesFromEnd v0 = Int f -> pagesFromEnd v1 = Int (f + 1) ->
  0 <= f -> f + 1 <= (Z.of_nat (length (posts v0)) + p - 1) / p - 1 ->
  exists i s0 e0 s1 e1,
    slice_start v0 = Int s0 /\ slice_end v0 = Int e0
    /\ slice_start v1 = Int s1 /\ slice_end v1 = Int e1
    /\ s0 <= i < e0 /\ s1 <= i < e1.
Proof.
  intros Hps Hp0 Hp1 Hp Hf0 Hf1 Hf Hfm.
  destruct (slice_bounds v0 p f Hp0 Hf0) as [Hs0 He0].
  destruct (slice_bounds v1 p (f + 1) Hp1 Hf1) as [Hs1 He1].
  rewrite Hps in Hs1, He1.
  set (n := Z.of_nat (length (posts v0))) in *.
  pose proof (ceiling_spec n p ltac:(lia)) as C.
  exists (n - p * (f + 1) - 1).
  eexists _, _, _, _.
  split; [exact Hs0|]. split; [exact He0|].
  split; [exact Hs1|]. split; [exact He1|]. nia.
Qed.

Lemma consecutive_windows_overlap_example :
  exists i s0 e0 s1 e1,
    slice_start (sample_view (sample_posts 45) (Int 20) (Int 0)) = Int s0
    /\ slice_end (sample_view (sample_posts 45) (Int 20) (Int 0)) = Int e0
    /\ slice_start (sample_view (sample_posts 45) (Int 20) (Int 1)) = Int s1
    /\ slice_end (sample_view (sample_posts 45) (Int 20) (Int 1)) = Int e1
    /\ s0 <= i < e0 /\ s1 <= i < e1.
Proof.
  apply (consecutive_windows_overlap
           (sample_view (sample_posts 45) (Int 20) (Int 0))
           (sample_view (sample_posts 45) (Int 20) (Int 1)) 20 0);
    try reflexivity; try lia.
  vm_compute. discriminate.
Defined.

(** * Further properties of the code *)

(** ** The number of pages and the windows *)

(** For a page size of at least 1, [numPages] is the ceiling of
    [count(posts) / perPage]: the least [m] with [count(posts) <= m * perPage];
    it is 0 exactly when there is no post. *)
Theorem numPages_is_ceiling (ps : list post) (p : Z) :
  1 <= p ->
  exists m,
    derive_numPages ps (Int p) = Int m
    /\ (m - 1) * p < Z.of_nat (length ps) <= m * p
    /\ (m = 0 <-> ps = []).
Proof.
  intros Hp. exists ((Z.of_nat (length ps) + p - 1) / p).
  pose proof (ceiling_spec (Z.of_nat (length ps)) p ltac:(lia)) as C.
  split; [apply derive_numPages_pos; lia|]. split; [exact C|].
  split.
  - intros E. rewrite E in C. destruct ps; [reflexivity | cbn in C; lia].
  - intros ->. cbn [length Z.of_nat]. apply Z.div_small. lia.
Qed.

Lemma numPages_is_ceiling_witness :
  exists m,
    derive_numPages (sample_posts 45) (Int 20) = Int m
    /\ (m - 1) * 20 < Z.of_nat (length (sample_posts 45)) <= m * 20
    /\ (m = 0 <-> sample_posts 45 = []).
Proof. apply (numPages_is_ceiling (sample_posts 45) 20). lia. Defined.

(** [slice] returns a run of consecutive elements of the array, whatever
    its arguments. *)
Lemma Array_slice_segment {A : Type} (l : list A) (a b : number) :
  exists pre suf, l = pre ++ Array_slice l a b ++ suf.
Proof.
  unfold Array_slice.
  set (j := Z.to_nat (relative_index (Z.of_nat (length l)) a)).
  set (k := Z.to_nat _).
  exists (take j l), (drop k (drop j l)).
  now rewrite (take_drop k (drop j l)), (take_drop j l).
Qed.

(** The posts [displayPosts] renders are a run of consecutive posts of the
    collection, in the order of the collection: a page never reorders or
    skips inside its window, whatever the query parameters were. *)
Theorem window_contiguous (v : view) :
  exists older newer, posts v = older ++ window v ++ newer.
Proof. apply Array_slice_segment. Qed.

(** Without [posts_pages_from_end] the page shown is the oldest one: for a
    non-empty collection and a page size of at least 1, [pagesFromEnd] is
    [numPages - 1] and the window is the first [k] posts, for some [k]
    between 1 and the page size. *)
Theorem default_window_oldest (v : view) (p : Z) :
  posts v <> [] ->
  perPage v = Int p -> 1 <= p ->
  numPages v = derive_numPages (posts v) (perPage v) ->
  pagesFromEnd v = derive_pagesFromEnd None (numPages v) ->
  exists m k,
    numPages v = Int m /\ pagesFromEnd v = Int (m - 1)
    /\ window v = take k (posts v)
    /\ (1 <= k)%nat /\ Z.of_nat k <= p /\ (k <= length (posts v))%nat.
Proof.
  intros Hne Hp Hp1 Hn Hf.
  rewrite Hp, derive_numPages_pos in Hn by lia.
  set (n := Z.of_nat (length (posts v))) in *.
  assert (Hn1 : 1 <= n) by (destruct (posts v); [congruence | cbn in n; lia]).
  pose proof (ceiling_spec n p ltac:(lia)) as C.
  set (m := (n + p - 1) / p) in *.
  assert (Hm : 1 <= m) by nia.
  assert (Hf' : pagesFromEnd v = Int (m - 1)).
  { rewrite Hf, Hn. unfold derive_pagesFromEnd, or_number. cbn [truthy].
    rewrite defaultPagesFromEnd_Int, parseInt_Int, Math_min_Int. f_equal. lia. }
  destruct (slice_bounds v p (m - 1) Hp Hf') as [Hs He]. fold n in Hs, He.
  exists m, (Z.to_nat (n - p * (m - 1))).
  split; [exact Hn|]. split; [exact Hf'|].
  assert (Hs0 : Z.max 0 (n - 1 - p * (1 + (m - 1))) = 0) by nia.
  rewrite Hs0 in Hs.
  destruct (Array_slice_in_range (posts v) 0 (n - p * (m - 1))
              ltac:(lia) ltac:(nia) ltac:(subst n; nia)) as [Hw _].
  unfold window. rewrite Hs, He, Hw.
  rewrite Z.sub_0_r. cbn [Z.to_nat drop].
  repeat split; nia.
Qed.

Lemma default_window_oldest_witness :
  exists m k,
    numPages (sample_view (sample_posts 45) (Int 20) (Int 2)) = Int m
    /\ pagesFromEnd (sample_view (sample_posts 45) (Int 20) (Int 2)) = Int (m - 1)
    /\ window (sample_view (sample_posts 45) (Int 20) (Int 2))
       = take k (sample_posts 45)
    /\ (1 <= k)%nat /\ Z.of_nat k <= 20 /\ (k <= length (sample_posts 45))%nat.
Proof.
  apply (default_window_oldest (sample_view (sample_posts 45) (Int 20) (Int 2)) 20).
  - vm_compute. discriminate.
  - reflexivity.
  - lia.
  - reflexivity.
  - vm_compute. reflexivity.
Defined.

Lemma windows_cover_witness :
  exists f,
    0 <= f <= (Z.of_nat (length (sample_posts 45)) + 20 - 1) / 20 - 1
    /\ forall v, posts v = sample_posts 45 -> perPage v = Int 20 ->
         pagesFromEnd v = Int f ->
         exists s e, slice_start v = Int s /\ slice_end v = Int e /\ s <= 30 < e.
Proof. apply (windows_cover (sample_posts 45) 20 30); vm_compute; intuition congruence. Defined.

(** ** The query of a generated link *)

(** [set] as the fold it is, for any state of its [found] flag. *)
Lemma params_set_go_beside (name v : string) (q : params) (found : bool) :
  pairs_beside name
    ((fix go (q : params) (found : bool) : params :=
        match q with
        | (k, w) :: q' =>
            if String.eqb k name
            then (if found then go q' true else (k, v) :: go q' true)
            else (k, w) :: go q' found
        | [] => []
        end) q found)
  = pairs_beside name q.
Proof.
  unfold pairs_beside.
  revert found. induction q as [|[k w] q IH]; intros found; [reflexivity|].
  destruct (String.eqb k name) eqn:E.
  - destruct found.
    + cbn [List.filter fst]. rewrite E. cbn [negb]. apply (IH true).
    + cbn [List.filter fst]. rewrite E. cbn [negb]. apply (IH true).
  - cbn [List.filter fst]. rewrite E. cbn [negb]. f_equal. apply IH.
Qed.

Lemma params_set_go_under (name v : string) (q : params) (found : bool) :
  pairs_under name
    ((fix go (q : params) (found : bool) : params :=
        match q with
        | (k, w) :: q' =>
            if String.eqb k name
            then (if found then go q' true else (k, v) :: go q' true)
            else (k, w) :: go q' found
        | [] => []
        end) q found)
  = if found then []
    else match params_get q name with
         | Some _ => [(name, v)]
         | None => []
         end.
Proof.
  unfold pairs_under.
  revert found. induction q as [|[k w] q IH]; intros found.
  - now destruct found.
  - cbn [params_get].
    destruct (String.eqb k name) eqn:E.
    + apply String.eqb_eq in E as ->. destruct found.
      * apply (IH true).
      * cbn [List.filter fst]. rewrite String.eqb_refl. f_equal. apply (IH true).
    + cbn [List.filter fst]. rewrite E. apply IH.
Qed.

Lemma params_get_under (name : string) (q : params) :
  params_get q name = option_map snd (head (pairs_under name q)).
Proof.
  induction q as [|[k w] q IH]; [reflexivity|].
  cbn [params_get pairs_under List.filter fst].
  destruct (String.eqb k name); [reflexivity | exact IH].
Qed.

Lemma pairs_beside_get (name name' : string) (q q' : params) :
  name' <> name ->
  pairs_beside name q' = pairs_beside name q ->
  params_get q' name' = params_get q name'.
Proof.
  intros Hne.
  assert (H : forall q, params_get q name' = params_get (pairs_beside name q) name').
  { clear q q'. induction q as [|[k w] q IH]; [reflexivity|].
    cbn [params_get pairs_beside List.filter fst].
    destruct (String.eqb_spec k name) as [->|Hk]; cbn [negb].
    - destruct (String.eqb_spec name name'); [congruence | exact IH].
    - cbn [params_get]. destruct (String.eqb k name'); [reflexivity | exact IH]. }
  intros E. now rewrite (H q'), (H q), E.
Qed.

(** After [q.set(name, v)] the name is bound once, to [v], and every other
    pair is where it was. *)
Lemma params_set_spec (q : params) (name v : string) :
  pairs_under name (params_set q name v) = [(name, v)]
  /\ pairs_beside name (params_set q name v) = pairs_beside name q.
Proof.
  unfold params_set. destruct (params_get q name) as [w|] eqn:G.
  - rewrite params_set_go_under, params_set_go_beside, G. auto.
  - assert (Hu : pairs_under name q = []).
    { rewrite params_get_under in G.
      destruct (pairs_under name q) as [|[k w] l]; [reflexivity | discriminate]. }
    unfold pairs_under, pairs_beside in *.
    rewrite !List.filter_app, Hu. cbn [List.filter fst].
    rewrite String.eqb_refl. cbn [negb]. now rewrite app_nil_r.
Qed.

Section LinkQuery.

Variable env : environment.

(** The anchor [getLinkElemForPage] returns for a page other than the
    current one points at [indexBaseUrl] with a query that binds
    [posts_pages_from_end] once, to [numPages - page], and keeps every other
    pair of the instance's query, in order. *)
Theorem getLinkElemForPage_query (s : state) (q : params) (pg : number)
    (optLabel : option string) :
  objects (page s) !! urlParams (this s) = Some q ->
  js_strict_eq (js_sub (numPages (this s)) pg) (pagesFromEnd (this s)) = false ->
  exists q' s',
    run (getLinkElemForPage env pg optLabel) s =
      Returns
        (Element "a" []
           (Some (indexBaseUrl (this s) +:+ "?" +:+ params_toString env q'))
           [label_of pg optLabel]) s'
    /\ pairs_under "posts_pages_from_end" q'
       = [("posts_pages_from_end",
           Number_toString (js_sub (numPages (this s)) pg))]
    /\ pairs_beside "posts_pages_from_end" q'
       = pairs_beside "posts_pages_from_end" q.
Proof.
  intros Hq Hne. rewrite (getLinkElemForPage_run env s q pg optLabel Hq), Hne.
  eexists _, _. split; [reflexivity|]. apply params_set_spec.
Qed.

(** Reading back a position written by a link: within the pages, the
    constructor derives the position the link carries. *)
Lemma derive_pagesFromEnd_written (m j : Z) :
  0 <= j <= m - 1 ->
  derive_pagesFromEnd (Some (Number_toString (Int j))) (Int m) = Int j.
Proof.
  intros Hj. unfold derive_pagesFromEnd, or_number.
  rewrite Number_toString_truthy, defaultPagesFromEnd_Int.
  change (parseInt (Str (Number_toString (Int j)))) with (parseInt (Num (Int j))).
  rewrite parseInt_Int, Math_min_Int. f_equal. lia.
Qed.

(** Following the link to page [pg], 1 to [numPages], with the same posts:
    the constructor derives the same page size and number of pages, and the
    position [numPages - pg], so that page [pg] is the current one. *)
Theorem link_roundtrip (parentElem : dataset) (ps : list post) (l l' : loc)
    (q : params) (base : option string) (m pg : Z) :
  numPages (constructed env parentElem ps l q base) = Int m ->
  1 <= pg <= m ->
  perPage (constructed env parentElem ps l' (link_params q (Int (m - pg))) base)
  = perPage (constructed env parentElem ps l q base)
  /\ numPages (constructed env parentElem ps l' (link_params q (Int (m - pg))) base)
     = Int m
  /\ pagesFromEnd
       (constructed env parentElem ps l' (link_params q (Int (m - pg))) base)
     = Int (m - pg).
Proof.
  intros Hm Hpg. cbn [constructed perPage numPages pagesFromEnd] in *.
  destruct (params_set_spec q "posts_pages_from_end"
              (Number_toString (Int (m - pg)))) as [Hu Hb].
  fold (link_params q (Int (m - pg))) in Hu, Hb.
  assert (Hper : params_get (link_params q (Int (m - pg))) "posts_per_page"
                 = params_get q "posts_per_page")
    by (apply (pairs_beside_get "posts_pages_from_end"); [discriminate | exact Hb]).
  assert (Hpos : params_get (link_params q (Int (m - pg))) "posts_pages_from_end"
                 = Some (Number_toString (Int (m - pg))))
    by (now rewrite params_get_under, Hu).
  rewrite Hper, Hpos, Hm. repeat split.
  apply derive_pagesFromEnd_written. lia.
Qed.

End LinkQuery.

Lemma getLinkElemForPage_query_witness :
  exists q' s',
    run (getLinkElemForPage (sample_env (sample_response 45)) (Int 2) None)
      sample_state =
      Returns
        (Element "a" []
           (Some (indexBaseUrl (this sample_state) +:+ "?"
                  +:+ params_toString (sample_env (sample_response 45)) q'))
           [label_of (Int 2) None]) s'
    /\ pairs_under "posts_pages_from_end" q' = [("posts_pages_from_end", "1")]
    /\ pairs_beside "posts_pages_from_end" q' = [("posts_per_page", "20")].
Proof.
  apply (getLinkElemForPage_query (sample_env (sample_response 45)) sample_state
           [("posts_per_page", "20")] (Int 2) None).
  - vm_compute. reflexivity.
  - vm_compute. reflexivity.
Defined.

Lemma link_roundtrip_witness :
  perPage (constructed (sample_env (sample_response 45)) sample_parent
             (sample_posts 45) 1%nat
             (link_params [("posts_per_page", "20")] (Int (3 - 2))) None)
  = perPage (constructed (sample_env (sample_response 45)) sample_parent
               (sample_posts 45) 0%nat [("posts_per_page", "20")] None)
  /\ numPages (constructed (sample_env (sample_response 45)) sample_parent
                 (sample_posts 45) 1%nat
                 (link_params [("posts_per_page", "20")] (Int (3 - 2))) None)
     = Int 3
  /\ pagesFromEnd (constructed (sample_env (sample_response 45)) sample_parent
                     (sample_posts 45) 1%nat
                     (link_params [("posts_per_page", "20")] (Int (3 - 2))) None)
     = Int (3 - 2).
Proof.
  apply (link_roundtrip (sample_env (sample_response 45)) sample_parent
           (sample_posts 45) 0%nat 1%nat [("posts_per_page", "20")] None 3 2).
  - vm_compute. reflexivity.
  - lia.
Defined.

(** ** The base of the links *)

Lemma drop_line_no_terminator (s : string) :
  has_line_terminator s = false -> drop_line s = EmptyString.
Proof.
  induction s as [|c s IH]; [reflexivity|]. cbn [has_line_terminator drop_line].
  intros H. apply orb_false_iff in H as [Hc Hs]. rewrite Hc. auto.
Qed.

(** On one line, [strip_from c] keeps what comes before the first [c]. *)
Lemma strip_from_prefix (c : ascii) (s : string) :
  has_line_terminator s = false ->
  contains_char c (strip_from c s) = false
  /\ exists rest, s = strip_from c s +:+ rest.
Proof.
  induction s as [|c' s IH]; intros H.
  - split; [reflexivity | now exists EmptyString].
  - cbn [has_line_terminator] in H. apply orb_false_iff in H as [Hc Hs].
    cbn [strip_from]. destruct (Ascii.eqb c' c) eqn:E.
    + rewrite (drop_line_no_terminator s Hs). split; [reflexivity|].
      now exists (String c' s).
    + destruct (IH Hs) as [Hn [rest Hrest]]. split.
      * cbn [contains_char]. now rewrite E, Hn.
      * exists rest.
        change (String c' s = String c' (strip_from c s +:+ rest)).
        now f_equal.
Qed.

Lemma contains_char_app (c : ascii) (a b : string) :
  contains_char c (a +:+ b) = contains_char c a || contains_char c b.
Proof.
  induction a as [|c' a IH]; [reflexivity|].
  change (contains_char c (String c' (a +:+ b))
          = contains_char c (String c' a) || contains_char c b).
  cbn [contains_char]. now rewrite IH, orb_assoc.
Qed.

Lemma has_line_terminator_app (a b : string) :
  has_line_terminator (a +:+ b) = has_line_terminator a || has_line_terminator b.
Proof.
  induction a as [|c a IH]; [reflexivity|].
  change (has_line_terminator (String c (a +:+ b))
          = has_line_terminator (String c a) || has_line_terminator b).
  cbn [has_line_terminator]. now rewrite IH, orb_assoc.
Qed.

Lemma string_app_assoc (a b c : string) : (a +:+ b) +:+ c = a +:+ (b +:+ c).
Proof.
  induction a as [|x a IH]; [reflexivity|].
  change (String x ((a +:+ b) +:+ c) = String x (a +:+ (b +:+ c))).
  now rewrite IH.
Qed.

(** The base the constructor stores for the links carries neither the
    fragment nor the query of the location: when the location is on one
    line, [indexBaseUrl] is the part of it before the first [#] or [?]. *)
Theorem indexBaseUrl_clean (env : environment) (parentElem : dataset)
    (ps : list post) (l : loc) (q : params) (base : option string) :
  has_line_terminator (location_href env) = false ->
  contains_char "#" (indexBaseUrl (constructed env parentElem ps l q base)) = false
  /\ contains_char "?" (indexBaseUrl (constructed env parentElem ps l q base))
     = false
  /\ exists rest,
       location_href env
       = indexBaseUrl (constructed env parentElem ps l q base) +:+ rest.
Proof.
  intros H. cbn [constructed indexBaseUrl].
  destruct (strip_from_prefix "#" (location_href env) H) as [Hh [r1 E1]].
  assert (H1 : has_line_terminator (strip_from "#" (location_href env)) = false).
  { rewrite E1, has_line_terminator_app in H. now apply orb_false_iff in H. }
  destruct (strip_from_prefix "?" (strip_from "#" (location_href env)) H1)
    as [Hq [r2 E2]].
  split; [|split].
  - rewrite E2, contains_char_app in Hh. now apply orb_false_iff in Hh.
  - exact Hq.
  - exists (r2 +:+ r1). rewrite <- string_app_assoc, <- E2. exact E1.
Qed.

Lemma indexBaseUrl_clean_witness :
  contains_char "#"
    (indexBaseUrl (constructed (sample_env (sample_response 45)) sample_parent
                     (sample_posts 45) 0%nat [] None)) = false
  /\ contains_char "?"
       (indexBaseUrl (constructed (sample_env (sample_response 45)) sample_parent
                        (sample_posts 45) 0%nat [] None)) = false
  /\ exists rest,
       location_href (sample_env (sample_response 45))
       = indexBaseUrl (constructed (sample_env (sample_response 45))
                         sample_parent (sample_posts 45) 0%nat [] None)
         +:+ rest.
Proof.
  apply (indexBaseUrl_clean (sample_env (sample_response 45)) sample_parent
           (sample_posts 45) 0%nat [] None).
  vm_compute. reflexivity.
Defined.

(** ** The pagination bar *)

Section Bar.

Variable env : environment.

Lemma getLinkElemForPage_elem (s : state) (q : params) (pg : number)
    (optLabel : option string) :
  objects (page s) !! urlParams (this s) = Some q ->
  exists s',
    run (getLinkElemForPage env pg optLabel) s
    = Returns (link_elem env (this s) q pg optLabel) s'
    /\ preserves s s'.
Proof.
  intros Hq.
  destruct (getLinkElemForPage_preserves env s pg optLabel (ex_intro _ q Hq))
    as (e & s' & Hrun & P).
  exists s'. split; [|exact P]. rewrite Hrun. f_equal.
  rewrite (getLinkElemForPage_run env s q pg optLabel Hq) in Hrun.
  unfold link_elem, link_params in *.
  destruct (js_strict_eq _ _); now injection Hrun as <- _.
Qed.

Lemma page_range_step (pg m : Z) :
  pg <= m -> page_range pg (Int m) = pg :: page_range (pg + 1) (Int m).
Proof.
  intros H. unfold page_range.
  replace (Z.to_nat (m - pg + 1)) with (S (Z.to_nat (m - (pg + 1) + 1))) by lia.
  cbn [seq map]. f_equal; [lia|].
  rewrite <- seq_shift, map_map. apply map_ext. intros i. lia.
Qed.

Lemma page_range_done (pg m : Z) : m < pg -> page_range pg (Int m) = [].
Proof.
  intros H. unfold page_range.
  replace (Z.to_nat (m - pg + 1)) with O by lia. reflexivity.
Qed.

(** The loop over the pages returns the links of the pages [pg] to
    [numPages], in order. *)
Lemma page_links_elems (fuel : nat) (pg : Z) (s : state) (q : params) :
  objects (page s) !! urlParams (this s) = Some q ->
  numPages (this s) <> PosInf ->
  (forall m, numPages (this s) = Int m -> m - pg + 1 <= Z.of_nat fuel) ->
  exists s',
    run (page_links env fuel pg) s
    = Returns (map (fun k => link_elem env (this s) q (Int k) None)
                 (page_range pg (numPages (this s)))) s'
    /\ preserves s s'.
Proof.
  revert pg s. induction fuel as [|fuel IH]; intros pg s Hq Hinf Hm.
  - exists s. split; [|apply preserves_refl].
    cbn [page_links]. rewrite run_ret.
    destruct (numPages (this s)) as [| | |m] eqn:E; try reflexivity.
    rewrite page_range_done; [reflexivity|]. specialize (Hm m eq_refl). lia.
  - cbn [page_links]. rewrite run_bind, run_gets.
    destruct (numPages (this s)) as [| | |m] eqn:E;
      try (exists s; split; [reflexivity | apply preserves_refl]);
      [congruence|].
    cbn [js_le js_lt]. destruct (Z.ltb_spec m pg) as [Hlt|Hle]; cbn [negb].
    + exists s. split; [|apply preserves_refl].
      now rewrite page_range_done.
    + destruct (getLinkElemForPage_elem s q (Int pg) None Hq)
        as (s1 & H1 & P1).
      destruct P1 as (Ht & Ho & Hc & Hr).
      destruct (IH (pg + 1) s1) as (s2 & H2 & P2).
      * rewrite Ht, Ho; eauto.
      * now rewrite Ht, E.
      * intros m' Hm'. rewrite Ht, E in Hm'. injection Hm' as <-.
        specialize (Hm m eq_refl). lia.
      * exists s2. split.
        -- rewrite run_bind, H1, run_bind, H2, Ht, E.
           now rewrite (page_range_step pg m Hle).
        -- eapply preserves_trans; [|exact P2]. repeat split; auto.
Qed.

(** The bar [getPaginationBar] returns is [bar_of]: it depends on the
    instance and on the pairs of its query only. *)
Lemma getPaginationBar_bar_of (s : state) (q : params) :
  objects (page s) !! urlParams (this s) = Some q ->
  numPages (this s) <> PosInf ->
  exists s',
    run (getPaginationBar env) s = Returns (bar_of env (this s) q) s'
    /\ preserves s s'.
Proof.
  intros Hq Hinf. unfold getPaginationBar, bar_of.
  rewrite run_bind, run_gets.
  set (cur := js_sub (numPages (this s)) (pagesFromEnd (this s))).
  assert (Hprev : exists s1,
    run (if js_gt cur (Int 1)
         then e ← getLinkElemForPage env (js_sub cur (Int 1)) (Some "Prev");
              mret [e]
         else mret []) s
    = Returns (if js_gt cur (Int 1)
               then [link_elem env (this s) q (js_sub cur (Int 1)) (Some "Prev")]
               else []) s1 /\ preserves s s1).
  { destruct (js_gt cur (Int 1)).
    - destruct (getLinkElemForPage_elem s q (js_sub cur (Int 1)) (Some "Prev") Hq)
        as (s1 & H1 & P1).
      exists s1. split; [|exact P1]. now rewrite run_bind, H1.
    - exists s. split; [reflexivity | apply preserves_refl]. }
  destruct Hprev as (s1 & H1 & P1). rewrite run_bind, H1.
  pose proof P1 as (Ht1 & Ho1 & _).
  destruct (page_links_elems (turns (numPages (this s))) 1 s1 q) as (s2 & H2 & P2).
  { rewrite Ht1, Ho1; eauto. }
  { now rewrite Ht1. }
  { intros m Hm. rewrite Ht1 in Hm. rewrite Hm. cbn [turns]. lia. }
  rewrite run_bind, H2, run_bind, run_gets.
  pose proof P2 as (Ht2 & Ho2 & _). rewrite Ht2, !Ht1.
  destruct (js_lt cur (numPages (this s))).
  - destruct (getLinkElemForPage_elem s2 q (js_add cur (Int 1)) (Some "Next"))
      as (s3 & H3 & P3).
    { rewrite Ht2, Ht1, Ho2, Ho1; eauto. rewrite Ho1; eauto. }
    exists s3. split.
    + rewrite run_bind, run_bind, H3, Ht2, Ht1. reflexivity.
    + eauto using preserves_trans.
  - exists s2. split.
    + rewrite run_bind. reflexivity.
    + eauto using preserves_trans.
Qed.

(** The link to the page [k] of an instance on page [numPages - f]. *)
Lemma link_elem_Int (v : view) (q : params) (m f k : Z)
    (optLabel : option string) :
  numPages v = Int m -> pagesFromEnd v = Int f ->
  link_elem env v q (Int k) optLabel =
    if k =? m - f then label_of (Int k) optLabel
    else Element "a" []
           (Some (indexBaseUrl v +:+ "?"
                  +:+ params_toString env (link_params q (Int (m - k)))))
           [label_of (Int k) optLabel].
Proof.
  intros Hm Hf. unfold link_elem. rewrite Hm, Hf.
  change (js_sub (Int m) (Int k)) with (Int (m - k)). cbn [js_strict_eq].
  destruct (bool_decide_reflect (Int (m - k) = Int f)) as [E|E];
    destruct (Z.eqb_spec k (m - f)) as [Hk|Hk]; try reflexivity.
  - injection E as E. lia.
  - exfalso. apply E. f_equal. lia.
Qed.

(** On a page of the collection ([0 <= pagesFromEnd <= numPages - 1], with
    [numPages] below 2^53) the bar is, in this order: the text [Page: ];
    unless the page is the first, an anchor labelled [Prev] whose query sets
    [posts_pages_from_end] one higher; for each page 1 to [numPages], an
    entry labelled with its number, the bare label for the current page
    [numPages - pagesFromEnd] and for every other page [k] an anchor whose
    query sets [posts_pages_from_end] to [numPages - k]; and, unless the
    page is the last, an anchor labelled [Next] whose query sets
    [posts_pages_from_end] one lower. *)
Theorem pagination_bar_shape (s : state) (q : params) (m f : Z) :
  objects (page s) !! urlParams (this s) = Some q ->
  numPages (this s) = Int m -> pagesFromEnd (this s) = Int f ->
  0 <= f <= m - 1 -> m < 2 ^ 53 ->
  (exists s',
     run (getPaginationBar env) s =
       Returns
         (Element "div" ["posts-pagination-bar"] None
            (Text "Page: "
             :: (if f <? m - 1
                 then [page_anchor env (this s) q (f + 1) "Prev"]
                 else [])
             ++ map (fun k =>
                       if k =? m - f
                       then page_label (Number_toString (Int k))
                       else page_anchor env (this s) q (m - k)
                              (Number_toString (Int k)))
                  (page_range 1 (Int m))
             ++ (if 0 <? f
                 then [page_anchor env (this s) q (f - 1) "Next"]
                 else []))) s')
  /\ length (page_range 1 (Int m)) = Z.to_nat m
  /\ forall k, 1 <= k <= m -> page_range 1 (Int m) !! Z.to_nat (k - 1) = Some k.
Proof.
  intros Hq Hm Hf Hfm _. split; [|split].
  - destruct (getPaginationBar_bar_of s q Hq) as (s' & Hrun & _);
      [rewrite Hm; discriminate|].
    exists s'. rewrite Hrun. f_equal. unfold bar_of. rewrite Hm, Hf.
    change (js_sub (Int m) (Int f)) with (Int (m - f)).
    cbn [js_gt js_lt js_sub js_add js_neg].
    f_equal. f_equal. f_equal; [|f_equal].
    + destruct (Z.ltb_spec 1 (m - f)), (Z.ltb_spec f (m - 1)); try lia;
        [|reflexivity].
      rewrite (link_elem_Int (this s) q m f _ _ Hm Hf).
      destruct (Z.eqb_spec (m - f + - (1)) (m - f)); [lia|].
      replace (m - (m - f + - (1))) with (f + 1) by lia. reflexivity.
    + apply map_ext. intros k.
      rewrite (link_elem_Int (this s) q m f _ _ Hm Hf).
      destruct (Z.eqb_spec k (m - f)); reflexivity.
    + destruct (Z.ltb_spec (m - f) m), (Z.ltb_spec 0 f); try lia;
        [|reflexivity].
      rewrite (link_elem_Int (this s) q m f _ _ Hm Hf).
      destruct (Z.eqb_spec (m - f + 1) (m - f)); [lia|].
      replace (m - (m - f + 1)) with (f - 1) by lia. reflexivity.
  - unfold page_range. rewrite length_map, length_seq. lia.
  - intros k Hk. unfold page_range. rewrite list_lookup_fmap.
    rewrite lookup_seq_lt by lia. cbn [fmap option_fmap option_map].
    f_equal. lia.
Qed.

(** Building the bar, when the loop over the pages ends ([numPages] is
    not the positive infinity and is below 2^53), returns, whatever the
    position, and changes neither the instance, nor an object that existed,
    nor the container, nor the requests. *)
Theorem getPaginationBar_frame (s : state) :
  is_Some (objects (page s) !! urlParams (this s)) ->
  finite_pages (numPages (this s)) ->
  exists bar s',
    run (getPaginationBar env) s = Returns bar s'
    /\ this s' = this s
    /\ (forall l, is_Some (objects (page s) !! l) ->
          objects (page s') !! l = objects (page s) !! l)
    /\ childNodes (page s') = childNodes (page s)
    /\ requests (page s') = requests (page s).
Proof.
  intros Hs _. destruct (getPaginationBar_preserves env s Hs) as (bar & s' & H & P).
  exists bar, s'. split; [exact H | exact P].
Qed.

End Bar.

Lemma pagination_bar_shape_witness :
  (exists s',
     run (getPaginationBar (sample_env (sample_response 45))) sample_state =
       Returns
         (Element "div" ["posts-pagination-bar"] None
            (Text "Page: "
             :: (if 2 <? 3 - 1
                 then [page_anchor (sample_env (sample_response 45))
                         (this sample_state) [("posts_per_page", "20")]
                         (2 + 1) "Prev"]
                 else [])
             ++ map (fun k =>
                       if k =? 3 - 2
                       then page_label (Number_toString (Int k))
                       else page_anchor (sample_env (sample_response 45))
                              (this sample_state) [("posts_per_page", "20")]
                              (3 - k) (Number_toString (Int k)))
                  (page_range 1 (Int 3))
             ++ (if 0 <? 2
                 then [page_anchor (sample_env (sample_response 45))
                         (this sample_state) [("posts_per_page", "20")]
                         (2 - 1) "Next"]
                 else []))) s')
  /\ length (page_range 1 (Int 3)) = Z.to_nat 3
  /\ forall k, 1 <= k <= 3 -> page_range 1 (Int 3) !! Z.to_nat (k - 1) = Some k.
Proof.
  apply (pagination_bar_shape (sample_env (sample_response 45)) sample_state
           [("posts_per_page", "20")] 3 2).
  - vm_compute. reflexivity.
  - vm_compute. reflexivity.
  - reflexivity.
  - lia.
  - lia.
Defined.

Lemma getPaginationBar_frame_witness :
  exists bar s',
    run (getPaginationBar (sample_env (sample_response 45))) sample_state
    = Returns bar s'
    /\ this s' = this sample_state
    /\ (forall l, is_Some (objects (page sample_state) !! l) ->
          objects (page s') !! l = objects (page sample_state) !! l)
    /\ childNodes (page s') = childNodes (page sample_state)
    /\ requests (page s') = requests (page sample_state).
Proof.
  apply (getPaginationBar_frame (sample_env (sample_response 45)) sample_state).
  - exists [("posts_per_page", "20")]. vm_compute. reflexivity.
  - vm_compute. reflexivity.
Defined.

(** ** What the methods leave alone, also when they throw *)

Section Keeps.

Variable env : environment.

Lemma keeps_bind {S A B X : Type} (f : S -> X) (m : M S A) (k : A -> M S B) :
  keeps f m -> (forall a, keeps f (k a)) -> keeps f (m ≫= k).
Proof.
  intros Hm Hk s. rewrite run_bind. specialize (Hm s).
  destruct (run m s) as [a s1|e s1]; cbn [final] in *.
  - now rewrite Hk.
  - exact Hm.
Qed.

Lemma keeps_same {S A X : Type} (f : S -> X) (m : M S A) :
  (forall s, final (run m s) = s) -> keeps f m.
Proof. intros H s. now rewrite H. Qed.

Lemma keeps_ret {S A X : Type} (f : S -> X) (a : A) : keeps f (mret a : M S A).
Proof. now apply keeps_same. Qed.

Lemma keeps_gets {S A X : Type} (f : S -> X) (g : S -> A) : keeps f (gets g).
Proof. now apply keeps_same. Qed.

Lemma keeps_throw {S A X : Type} (f : S -> X) (e : exn) :
  keeps f (throw e : M S A).
Proof. now apply keeps_same. Qed.

Lemma keeps_deref {X : Type} (f : world -> X) (l : loc) : keeps f (deref l).
Proof.
  apply keeps_same. intros w. unfold deref. cbn [run].
  now destruct (objects w !! l).
Qed.

Lemma keeps_URL_href {S X : Type} (f : S -> X) (url : string)
    (base : option string) :
  keeps f (URL_href env url base).
Proof.
  unfold URL_href. destruct (new_URL env url base);
    [apply keeps_ret | apply keeps_throw].
Qed.

Lemma keeps_on_page {A X : Type} (g : world -> X) (m : M world A) :
  keeps g m -> keeps (fun s => g (page s)) (on_page m).
Proof.
  intros Hm s. rewrite run_on_page. specialize (Hm (page s)).
  now destruct (run m (page s)).
Qed.

Lemma keeps_on_page_this {A : Type} (m : M world A) : keeps this (on_page m).
Proof. intros s. rewrite run_on_page. now destruct (run m (page s)). Qed.

Lemma keeps_with_this {A X : Type} (g : world -> X) (v : view) (m : M state A) :
  keeps (fun s => g (page s)) m -> keeps g (with_this v m).
Proof.
  intros Hm w. unfold with_this. cbn [run].
  specialize (Hm {| this := v; page := w |}).
  now destruct (run m _).
Qed.

Lemma keeps_forEach {S A X : Type} (f : S -> X) (l : list A) (k : A -> M S unit) :
  (forall x, keeps f (k x)) -> keeps f (forEach l k).
Proof.
  intros Hk. induction l as [|x l IH]; cbn [forEach].
  - apply keeps_ret.
  - apply keeps_bind; auto.
Qed.

Lemma keeps_map_indexed {S A B X : Type} (f : S -> X) (k : Z -> A -> M S B)
    (l : list A) :
  (forall i x, keeps f (k i x)) -> forall i0, keeps f (map_indexed k i0 l).
Proof.
  intros Hk. induction l as [|x l IH]; intros i0; cbn [map_indexed].
  - apply keeps_ret.
  - apply keeps_bind; [apply Hk|]. intros y.
    apply keeps_bind; [apply IH|]. intros ys. apply keeps_ret.
Qed.

(** The operations on the page that do not touch the requests. *)
Lemma keeps_requests_alloc (q : params) : keeps requests (alloc q).
Proof. intros w. reflexivity. Qed.

Lemma keeps_requests_set (l : loc) (name v : string) :
  keeps requests (URLSearchParams_set l name v).
Proof.
  unfold URLSearchParams_set. apply keeps_bind; [apply keeps_deref|].
  intros q w. reflexivity.
Qed.

Lemma keeps_requests_clear : keeps requests clear_children.
Proof. intros w. reflexivity. Qed.

Lemma keeps_requests_append (n : node) : keeps requests (appendChild n).
Proof. intros w. reflexivity. Qed.

(** Splits a method along its binds and branches. *)
Ltac keeps_step :=
  first
    [ apply keeps_ret | apply keeps_gets | apply keeps_throw
    | apply keeps_deref | apply keeps_URL_href
    | apply keeps_requests_alloc | apply keeps_requests_set
    | apply keeps_requests_clear | apply keeps_requests_append
    | apply keeps_on_page_this
    | apply (keeps_on_page requests)
    | apply keeps_forEach; intros ?
    | apply keeps_map_indexed; intros ? ?
    | apply keeps_bind; [|intros ?]
    | match goal with
      | |- keeps _ (if ?b then _ else _) => destruct b
      | |- keeps _ (match ?o with Some _ => _ | None => _ end) => destruct o
      end ].

Lemma keeps_getLinkElemForPage (pg : number) (optLabel : option string) :
  keeps this (getLinkElemForPage env pg optLabel)
  /\ keeps (fun s => requests (page s)) (getLinkElemForPage env pg optLabel).
Proof.
  unfold getLinkElemForPage, URLSearchParams_new, URLSearchParams_toString.
  split; repeat keeps_step.
Qed.

Lemma keeps_page_links (fuel : nat) (pg : Z) :
  keeps this (page_links env fuel pg)
  /\ keeps (fun s => requests (page s)) (page_links env fuel pg).
Proof.
  revert pg. induction fuel as [|fuel IH]; intros pg; cbn [page_links].
  - split; apply keeps_ret.
  - split; (apply keeps_bind; [apply keeps_gets|]; intros v;
            destruct (js_le _ _); [|apply keeps_ret];
            apply keeps_bind; [apply keeps_getLinkElemForPage|]; intros e;
            apply keeps_bind; [apply IH|]; intros es; apply keeps_ret).
Qed.

Lemma keeps_getPaginationBar :
  keeps this (getPaginationBar env)
  /\ keeps (fun s => requests (page s)) (getPaginationBar env).
Proof.
  unfold getPaginationBar.
  split;
    repeat first [ apply keeps_getLinkElemForPage | apply keeps_page_links
                 | keeps_step ].
Qed.

Lemma keeps_postToElem (p : post) :
  keeps this (postToElem env p)
  /\ keeps (fun s => requests (page s)) (postToElem env p).
Proof. unfold postToElem. split; repeat keeps_step. Qed.

(** [displayPosts], whether it returns or throws, assigns no field of the
    instance and issues no request. *)
Theorem displayPosts_keeps (s : state) :
  this (final (run (displayPosts env) s)) = this s
  /\ requests (page (final (run (displayPosts env) s))) = requests (page s).
Proof.
  assert (H : keeps this (displayPosts env)
              /\ keeps (fun s => requests (page s)) (displayPosts env)).
  { unfold displayPosts.
    split;
      repeat first [ apply keeps_getPaginationBar | apply keeps_postToElem
                   | keeps_step ]. }
  split; apply H.
Qed.

Lemma keeps_requests_displayPosts :
  keeps (fun s => requests (page s)) (displayPosts env).
Proof.
  unfold displayPosts.
  repeat first [ apply keeps_getPaginationBar | apply keeps_postToElem
               | keeps_step ].
Qed.

Lemma keeps_requests_constructor (parentElem : dataset) (ps : list post)
    (l : loc) :
  keeps requests (constructor env parentElem ps l).
Proof.
  unfold constructor, URLSearchParams_get.
  repeat first [ apply keeps_with_this; apply keeps_requests_displayPosts
               | keeps_step ].
Qed.

(** [create] requests the posts once, whatever follows: when it returns and
    when it throws, the requests are those made before and, last, the URL of
    the posts. *)
Theorem create_requests_once (parentElem : dataset) (l : loc) (w : world) :
  requests (final (run (create env parentElem l) w))
  = requests w ++ [postsUrl_of parentElem].
Proof.
  unfold create. fold (postsUrl_of parentElem).
  rewrite run_bind. unfold do_fetch. rewrite run_bind. cbn [modify run].
  destruct (fetch env (postsUrl_of parentElem)) as [r|]; [|reflexivity].
  rewrite run_ret. destruct (negb (ok r)); [reflexivity|].
  destruct (json r) as [ps|]; [|reflexivity].
  now rewrite keeps_requests_constructor.
Qed.

End Keeps.

(** ** What [displayPosts] renders, and what it leaves when it throws *)

Section Content.

Variable env : environment.

(** Where a list stops rendering. *)
Lemma mapM_render_None (v : view) (l : list post) :
  mapM (render env v) l = None ->
  exists l1 p l2 done,
    l = l1 ++ p :: l2 /\ mapM (render env v) l1 = Some done
    /\ render env v p = None.
Proof.
  induction l as [|p l IH]; [discriminate|]. cbn [mapM].
  destruct (render env v p) as [e|] eqn:He.
  - cbn [mbind option_bind].
    destruct (mapM (render env v) l) as [es|] eqn:Hes; [discriminate|].
    intros _. destruct (IH eq_refl) as (l1 & p' & l2 & done & -> & Hd & Hp).
    exists (p :: l1), p', l2, (e :: done). split; [reflexivity|].
    split; [|exact Hp]. cbn [mapM]. rewrite He. cbn [mbind option_bind].
    now rewrite Hd.
  - intros _. exists [], p, l, []. auto.
Qed.

(** Appending stops at the first post that does not render: the elements
    of the posts before it are in the container. *)
Lemma forEach_append_stops (l1 l2 : list post) (p : post) (done : list node)
    (s : state) :
  mapM (render env (this s)) l1 = Some done ->
  render env (this s) p = None ->
  run (forEach (l1 ++ p :: l2)
         (fun p => e ← postToElem env p; on_page (appendChild e))) s =
    Throws (TypeError "Invalid URL")
      {| this := this s;
         page := {| objects := objects (page s);
                    childNodes := childNodes (page s) ++ done;
                    requests := requests (page s) |} |}.
Proof.
  revert done s. induction l1 as [|x l1 IH]; intros done s Hd Hp.
  - injection Hd as <-. cbn [app forEach].
    rewrite run_bind, run_bind, postToElem_fixed, Hp, app_nil_r.
    now destruct s as [v [o c r]].
  - cbn [mapM] in Hd.
    destruct (render env (this s) x) as [e|] eqn:He; [|discriminate].
    cbn [mbind option_bind] in Hd.
    destruct (mapM (render env (this s)) l1) as [es|] eqn:Hes; [|discriminate].
    injection Hd as <-.
    cbn [app forEach]. rewrite run_bind, run_bind, postToElem_fixed, He.
    cbn [fixed]. rewrite run_ret, run_on_page. cbn [appendChild modify run].
    rewrite (IH es) by assumption.
    cbn [this page objects childNodes requests]. now rewrite <- app_assoc.
Qed.



(** On the posts of the embedding, [displayPosts] on an instance whose
    query is an object returns, or throws the [TypeError] of [new URL]. *)
Lemma displayPosts_outcomes (s : state) :
  is_Some (objects (page s) !! urlParams (this s)) ->
  (exists s', run (displayPosts env) s = Returns tt s')
  \/ (exists s', run (displayPosts env) s = Throws (TypeError "Invalid URL") s').
Proof.
  intros Hs. destruct (falsy (numPages (this s))) eqn:Hf.
  - left. eexists. apply displayPosts_falsy. exact Hf.
  - destruct (mapM (render env (this s)) (window (this s))) as [elems|] eqn:Hm.
    + left. destruct (displayPosts_run env s elems Hs Hf Hm)
        as (bar & s1 & _ & _ & Hrun). eauto.
    + right. destruct (mapM_render_None _ _ Hm)
        as (l1 & p & l2 & done & Hw & Hd & Hp).
      destruct (getPaginationBar_preserves env (cleared s) Hs)
        as (bar & s1 & H1 & (Ht & _)).
      cbn [cleared this] in Ht.
      unfold displayPosts.
      rewrite run_bind, run_on_page. cbn [clear_children modify run].
      rewrite run_bind, run_gets. cbn [this]. rewrite Hf.
      change {| this := this s;
                page := {| objects := objects (page s); childNodes := [];
                           requests := requests (page s) |} |} with (cleared s).
      rewrite run_bind, H1, run_bind, run_on_page. cbn [appendChild modify run].
      rewrite run_bind, run_gets. cbn [this]. rewrite Ht, Hw.
      rewrite run_bind, (forEach_append_stops l1 l2 p done)
        by (cbn [this]; rewrite ?Ht; assumption).
      eauto.
Qed.

(** The script on a good response: with the display element present, a
    response that is ok and a body that is an array of posts (of the shape
    the program reads, their strings holding no surrogate), the script
    returns or throws the [TypeError] of [new URL] (on the base URL of the
    container or on a URL of a post), whatever the query parameters: no
    other exception, and one request. *)
Theorem main_outcomes (parentElem : dataset) (w : world) (r : response)
    (ps : list post) :
  fetch env (postsUrl_of parentElem) = Some r ->
  ok r = true ->
  json r = Some ps ->
  exists w',
    (run (main env (Some parentElem)) w = Returns tt w'
     \/ run (main env (Some parentElem)) w = Throws (TypeError "Invalid URL") w')
    /\ requests w' = requests w ++ [postsUrl_of parentElem].
Proof.
  intros Hfetch Hok Hjson.
  destruct (main_run env parentElem w) as (l & w1 & Hal & Hl & Hmain).
  assert (Hw1 : requests w1 = requests w) by (now injection Hal as _ <-).
  rewrite Hmain. unfold create. fold (postsUrl_of parentElem).
  rewrite run_bind. unfold do_fetch. rewrite run_bind. cbn [modify run].
  rewrite Hfetch, run_ret, Hok. cbn [negb]. rewrite Hjson.
  match goal with
  | |- context [run (constructor env parentElem ps l) ?w0] =>
      pose proof (keeps_requests_constructor env parentElem ps l w0) as Hreq;
      cbn [requests] in Hreq; revert Hreq;
      rewrite (constructor_run env parentElem ps l w0 (location_search env))
        by exact Hl
  end.
  rewrite Hw1.
  destruct (stored_base env parentElem) as [base|];
    [|cbn [final requests]; eauto].
  unfold with_this. cbn [run].
  match goal with
  | |- context [run (displayPosts env) ?s0] =>
      destruct (displayPosts_outcomes s0) as [[s' ->]|[s' ->]]
  end; cbn [this page objects final]; eauto.
Qed.

(** A page size of zero: when [posts_per_page] has a value that [parseInt]
    reads as 0 and the base URL of the container (if any) resolves, the
    constructor returns with [numPages] NaN and an empty container,
    whatever the posts. *)
Theorem constructor_zero_perPage (parentElem : dataset) (ps : list post)
    (l : loc) (w : world) (q : params) (value : string) :
  objects w !! l = Some q ->
  params_get q "posts_per_page" = Some value ->
  parseInt_string value = Int 0 ->
  base_resolves env parentElem ->
  exists v,
    run (constructor env parentElem ps l) w =
      Returns v {| objects := objects w; childNodes := [];
                   requests := requests w |}
    /\ perPage v = Int 0 /\ numPages v = NaN /\ pagesFromEnd v = NaN.
Proof.
  intros Hq Hg Hz Hbase.
  rewrite (constructor_run env parentElem ps l w q Hq).
  destruct (base_resolves_stored env parentElem Hbase) as [base ->].
  assert (Hp : derive_perPage (params_get q "posts_per_page") = Int 0).
  { rewrite Hg. unfold derive_perPage, or_number, truthy.
    destruct value; [discriminate Hz | exact Hz]. }
  exists (constructed env parentElem ps l q base).
  unfold with_this. cbn [run].
  rewrite displayPosts_falsy
    by (cbn [this constructed numPages]; now rewrite Hp, derive_numPages_zero).
  cbn [this page constructed posts perPage numPages pagesFromEnd
         objects childNodes requests].
  rewrite Hp, derive_numPages_zero. repeat split.
Qed.

End Content.

(** ** The element of a post *)

Section PostElement.

Variable env : environment.

(** The thumbnails: every source is resolved, in order, and the [k]-th,
    counted from [i0], goes through the template with its index. *)
Lemma thumbnails_run {St : Type} (t : Z -> string -> string)
    (base : option string) (l : list string) (i0 : Z) (s : St) :
  run (map_indexed (fun i src => src ← URL_href env src base; mret (t i src))
         i0 l) s =
    match mapM (fun src => new_URL env src base) l with
    | Some hs => Returns (imap (fun k h => t (i0 + Z.of_nat k) h) hs) s
    | None => Throws (TypeError "Invalid URL") s
    end.
Proof.
  revert i0. induction l as [|src l IH]; intros i0; [reflexivity|].
  cbn [map_indexed mapM]. rewrite run_bind, run_bind, URL_href_fixed.
  destruct (new_URL env src base) as [h|]; [|reflexivity].
  cbn [fixed mbind option_bind]. rewrite !run_ret, run_bind, IH.
  destruct (mapM (fun src => new_URL env src base) l) as [hs|]; [|reflexivity].
  cbn [mret option_ret]. rewrite run_ret. f_equal.
  change (imap (fun k h0 => t (i0 + Z.of_nat k) h0) (h :: hs))
    with (t (i0 + Z.of_nat 0) h
          :: imap (fun k h0 => t (i0 + Z.of_nat (S k)) h0) hs).
  f_equal.
  - f_equal. lia.
  - apply imap_ext. intros k x _. f_equal. lia.
Qed.

(** The phrases: the first without a comma, every later one after one. *)
Lemma phrases_with_commas (path : string) (texts : list string) :
  concat (imap (fun i text =>
            (if js_gt (Int (Z.of_nat i)) (Int 0) then [Text ", "] else [])
            ++ [phrase_link env path text]) texts)
  = with_commas (map (phrase_link env path) texts).
Proof.
  destruct texts as [|t texts]; [reflexivity|].
  cbn [imap concat map with_commas].
  cbn [js_gt js_lt Z.of_nat Z.ltb Z.compare app].
  f_equal.
  rewrite (imap_ext _ (fun _ text => [Text ", "; phrase_link env path text])).
  - induction texts as [|t' texts IH]; [reflexivity|].
    cbn [imap concat map flat_map app]. f_equal. f_equal. exact IH.
  - intros i x _. unfold compose.
    destruct (Z.ltb_spec 0 (Z.of_nat (S i))); [reflexivity | lia].
Qed.

(** The two ways [postToElem] ends on a post of the embedding: it returns
    with the URLs resolved, or a URL does not resolve and [new URL] throws. *)
Lemma postToElem_cases (p : post) (s : state) :
  ((exists e, run (postToElem env p) s = Returns e s)
   /\ is_Some (new_URL env (output_file p) (baseUrl (this s)))
   /\ Forall (fun src => is_Some (new_URL env src (baseUrl (this s))))
        (thumbnails p))
  \/ (run (postToElem env p) s = Throws (TypeError "Invalid URL") s
      /\ (new_URL env (output_file p) (baseUrl (this s)) = None
          \/ Exists (fun src => new_URL env src (baseUrl (this s)) = None)
               (thumbnails p))).
Proof.
  unfold postToElem. rewrite run_bind, run_gets, run_bind, URL_href_fixed.
  destruct (new_URL env (output_file p) (baseUrl (this s))) as [path|] eqn:Hp.
  2:{ right. split; [reflexivity | now left]. }
  cbn [fixed]. rewrite run_ret, run_bind.
  rewrite (thumbnails_run (thumbnail_link path)).
  destruct (mapM _ (thumbnails p)) as [hs|] eqn:Hm.
  - left. split; [rewrite run_ret; eauto|]. split; [eauto|].
    apply mapM_Some_1 in Hm. induction Hm; constructor; eauto.
  - right. split; [reflexivity|]. right. exact (mapM_None_1 _ _ Hm).
Qed.

(** When the path resolves to [path] and the thumbnails to [hs], the markup
    of the post ends with one link per thumbnail, in order: the [k]-th,
    counted from 0, shows [hs !! k] and points at [#img-(k+1)] on the page
    of the post. *)
Theorem postToElem_thumbnails (p : post) (s : state) (path : string)
    (hs : list string) :
  new_URL env (output_file p) (baseUrl (this s)) = Some path ->
  mapM (fun src => new_URL env src (baseUrl (this s))) (thumbnails p) = Some hs ->
  (exists head rest,
     run (postToElem env p) s =
       Returns (Element "div" ["post"] None
                  (Markup (head +:+ join (imap (fun k h =>
                             thumbnail_link path (Z.of_nat k) h) hs)) :: rest)) s)
  /\ length hs = length (thumbnails p)
  /\ forall k h,
       thumbnail_link path k h =
         "<a " +:+ attr "class" "post-thumbnail" +:+ " "
         +:+ attr "href" (path +:+ "#img-" +:+ Number_toString (Int (k + 1)))
         +:+ " " +:+ attr "title" "Click too see full image in context"
         +:+ "><img " +:+ attr "src" h +:+ "></a>".
Proof.
  intros Hp Hm. split; [|split].
  - unfold postToElem. rewrite run_bind, run_gets, run_bind, URL_href_fixed, Hp.
    cbn [fixed]. rewrite run_ret, run_bind.
    rewrite (thumbnails_run (thumbnail_link path)), Hm, run_ret.
    eexists _, _. f_equal. f_equal. f_equal. f_equal.
    rewrite <- !string_app_assoc. reflexivity.
  - symmetry. exact (length_mapM _ _ _ Hm).
  - intros k h. reflexivity.
Qed.

(** The phrases of [i_text] follow the markup after a [br]: one anchor per
    phrase, in order, each to the text fragment of its phrase on the page of
    the post, with a comma between each two.  A post without [i_text] has
    the markup only. *)
Theorem postToElem_phrases (p : post) (s : state) (path : string)
    (hs : list string) :
  new_URL env (output_file p) (baseUrl (this s)) = Some path ->
  mapM (fun src => new_URL env src (baseUrl (this s))) (thumbnails p) = Some hs ->
  exists markup,
    run (postToElem env p) s =
      Returns (Element "div" ["post"] None
                 (Markup markup ::
                  match i_text p with
                  | Some texts =>
                      Element "br" [] None []
                      :: with_commas (map (phrase_link env path) texts)
                  | None => []
                  end)) s.
Proof.
  intros Hp Hm.
  unfold postToElem. rewrite run_bind, run_gets, run_bind, URL_href_fixed, Hp.
  cbn [fixed]. rewrite run_ret, run_bind.
  rewrite (thumbnails_run (thumbnail_link path)), Hm, run_ret.
  eexists. f_equal. f_equal. f_equal.
  destruct (i_text p) as [texts|]; [|reflexivity].
  f_equal. apply phrases_with_commas.
Qed.

(** The two copies of [postToElem] side by side, on a post of the
    embedding. *)
Lemma postToElem_old_cases (p : post) (s : state) :
  ((exists e, run (postToElem env p) s = Returns e s)
   /\ exists markup,
        run (postToElem_old env p) s
        = Returns (Element "div" ["post"] None [Markup markup]) s)
  \/ (run (postToElem env p) s = Throws (TypeError "Invalid URL") s
      /\ run (postToElem_old env p) s = Throws (TypeError "Invalid URL") s).
Proof.
  unfold postToElem, postToElem_old.
  rewrite !run_bind, !run_gets, !run_bind, !URL_href_fixed.
  destruct (new_URL env (output_file p) (baseUrl (this s))) as [path|];
    [|right; split; reflexivity].
  cbn [fixed]. rewrite !run_ret, !run_bind.
  rewrite (thumbnails_run (thumbnail_link path)).
  rewrite (thumbnails_run (fun i src =>
             "<a "
             +:+ attr "href"
                   (path +:+ "#img-"
                    +:+ Number_toString (js_add (Int i) (Int 1)))
             +:+ "><img " +:+ attr "src" src +:+ "></a>")).
  destruct (mapM _ (thumbnails p)) as [hs|];
    [|right; split; reflexivity].
  left. rewrite !run_ret. split; eauto.
Qed.

(** The URLs come first: when the path of the post or one of its thumbnails
    does not resolve against the base URL, [postToElem] throws the
    [TypeError] of [new URL] with the state as it was, whatever [i_text]
    holds; and when [postToElem] returns, the path and every thumbnail did
    resolve and the state is as it was. *)
Theorem postToElem_unresolved_throws (p : post) (s : state) :
  (new_URL env (output_file p) (baseUrl (this s)) = None
   \/ Exists (fun src => new_URL env src (baseUrl (this s)) = None)
        (thumbnails p) ->
   run (postToElem env p) s = Throws (TypeError "Invalid URL") s)
  /\ (forall e s',
        run (postToElem env p) s = Returns e s' ->
        s' = s
        /\ is_Some (new_URL env (output_file p) (baseUrl (this s)))
        /\ Forall (fun src => is_Some (new_URL env src (baseUrl (this s))))
             (thumbnails p)).
Proof.
  destruct (postToElem_cases p s) as [[[e He] [Hp Ht]]|[Hthrow Hun]].
  - split.
    + intros [Hn|Hex].
      * rewrite Hn in Hp. now destruct Hp.
      * exfalso. apply Exists_exists in Hex as (src & Hin & Hsrc).
        rewrite Forall_forall in Ht. specialize (Ht src Hin).
        rewrite Hsrc in Ht. now destruct Ht.
    + intros e' s' Hrun. rewrite He in Hrun. injection Hrun as _ <-. auto.
  - split; [auto|]. intros e s' Hrun. rewrite Hthrow in Hrun. discriminate.
Qed.

(** The earlier copy of [postToElem] against the later one: when the later
    copy returns, the earlier one returns too, a [div] holding markup only;
    and when the earlier copy throws, the later one throws the same
    exception, neither changing the state. *)
Theorem postToElem_old_agrees (p : post) (s : state) :
  (forall e s',
     run (postToElem env p) s = Returns e s' ->
     exists markup,
       run (postToElem_old env p) s
       = Returns (Element "div" ["post"] None [Markup markup]) s)
  /\ (forall ex s',
        run (postToElem_old env p) s = Throws ex s' ->
        s' = s /\ run (postToElem env p) s = Throws ex s).
Proof.
  destruct (postToElem_old_cases p s) as [[[e He] [mk Hold]]|[Hnew Hold]].
  - split.
    + intros _ _ _. eauto.
    + intros ex s' Hrun. rewrite Hold in Hrun. discriminate.
  - split.
    + intros e s' Hrun. rewrite Hnew in Hrun. discriminate.
    + intros ex s' Hrun. rewrite Hold in Hrun. injection Hrun as <- <-. auto.
Qed.

End PostElement.



Lemma constructor_zero_perPage_witness :
  exists v,
    run (constructor (sample_env (sample_response 45)) sample_parent
           (sample_posts 45) 0%nat)
      (sample_world [("posts_per_page", "0")])
    = Returns v {| objects := objects (sample_world [("posts_per_page", "0")]);
                   childNodes := []; requests := [] |}
    /\ perPage v = Int 0 /\ numPages v = NaN /\ pagesFromEnd v = NaN.
Proof.
  apply (constructor_zero_perPage (sample_env (sample_response 45))
           sample_parent (sample_posts 45) 0%nat
           (sample_world [("posts_per_page", "0")])
           [("posts_per_page", "0")] "0").
  - vm_compute. reflexivity.
  - reflexivity.
  - reflexivity.
  - intros b Hb. injection Hb as <-. vm_compute. eauto.
Defined.

Lemma postToElem_thumbnails_witness :
  (exists head rest,
     run (postToElem (sample_env (sample_response 45)) (sample_post 0))
       sample_state =
       Returns (Element "div" ["post"] None
                  (Markup (head +:+ join (imap (fun k h =>
                             thumbnail_link "https://example.org/blog/post-0.html"
                               (Z.of_nat k) h)
                             ["https://example.org/blog/a.png";
                              "https://example.org/blog/b.png"])) :: rest))
         sample_state)
  /\ length ["https://example.org/blog/a.png"; "https://example.org/blog/b.png"]
     = length (thumbnails (sample_post 0))
  /\ forall k h,
       thumbnail_link "https://example.org/blog/post-0.html" k h =
         "<a " +:+ attr "class" "post-thumbnail" +:+ " "
         +:+ attr "href" ("https://example.org/blog/post-0.html" +:+ "#img-"
                          +:+ Number_toString (Int (k + 1)))
         +:+ " " +:+ attr "title" "Click too see full image in context"
         +:+ "><img " +:+ attr "src" h +:+ "></a>".
Proof.
  apply (postToElem_thumbnails (sample_env (sample_response 45)) (sample_post 0)
           sample_state); vm_compute; reflexivity.
Defined.

Lemma postToElem_phrases_witness :
  exists markup,
    run (postToElem (sample_env (sample_response 45)) (sample_post 0))
      sample_state =
      Returns (Element "div" ["post"] None
                 (Markup markup ::
                  match i_text (sample_post 0) with
                  | Some texts =>
                      Element "br" [] None []
                      :: with_commas
                           (map (phrase_link (sample_env (sample_response 45))
                                   "https://example.org/blog/post-0.html") texts)
                  | None => []
                  end)) sample_state.
Proof.
  apply (postToElem_phrases (sample_env (sample_response 45)) (sample_post 0)
           sample_state "https://example.org/blog/post-0.html"
           ["https://example.org/blog/a.png"; "https://example.org/blog/b.png"]);
    vm_compute; reflexivity.
Defined.

Lemma main_outcomes_witness :
  exists w',
    (run (main (sample_env (sample_response 45)) (Some sample_parent))
       {| objects := ∅; childNodes := []; requests := [] |} = Returns tt w'
     \/ run (main (sample_env (sample_response 45)) (Some sample_parent))
          {| objects := ∅; childNodes := []; requests := [] |}
        = Throws (TypeError "Invalid URL") w')
    /\ requests w' = [] ++ [postsUrl_of sample_parent].
Proof.
  apply (main_outcomes (sample_env (sample_response 45)) sample_parent
           {| objects := ∅; childNodes := []; requests := [] |}
           (sample_response 45) (sample_posts 45)); reflexivity.
Defined.

Lemma postToElem_unresolved_throws_witness :
  run (postToElem (sample_env (sample_response 45)) broken_post) sample_state
  = Throws (TypeError "Invalid URL") sample_state.
Proof.
  apply (proj1 (postToElem_unresolved_throws (sample_env (sample_response 45))
                  broken_post sample_state)).
  left. reflexivity.
Defined.

Lemma postToElem_old_agrees_witness :
  sample_state = sample_state
  /\ run (postToElem (sample_env (sample_response 45)) broken_post) sample_state
     = Throws (TypeError "Invalid URL") sample_state.
Proof.
  apply (proj2 (postToElem_old_agrees (sample_env (sample_response 45))
                  broken_post sample_state)
           (TypeError "Invalid URL") sample_state).
  vm_compute. reflexivity.
Defined.
